(** * Transport core of the Telegram client: message packer, pseudo-cancellable
      tasks and the connection's disconnect / recv paths.

    The development follows the JavaScript sources:
    - [telegram/network/RequestState.js]  (class RequestState)
    - [telegram/extensions/MessagePacker.js]  (class MessagePacker)
    - [real-cancellable-promise]  (pseudoCancellable)
    - [telegram/network/connection/Connection.js]  (class Connection)

    Objects that the code mutates and shares (RequestState instances sit in
    the packer queue, in the returned batch and behind [state.after]) live in
    a heap addressed by references; every function threads the heap and the
    object it is a method of. *)

From Stdlib Require Import ZArith Lia Bool.
From stdpp Require Import base list strings.

(** ** JavaScript runtime notions shared by the three classes *)

(** What a [throw] or a promise rejection carries. *)
Inductive JsError : Type :=
| TypeError (message : string)
| RangeError (message : string)
| Error (message : string)
| Cancellation (message : string)
| StringReason (s : string).

(** Completion of a call: normal return or exception. *)
Inductive Completion (A : Type) : Type :=
| Normal (a : A)
| Throw (e : JsError).
Arguments Normal {A} a.
Arguments Throw {A} e.

(** A promise is a one-shot slot. *)
Inductive Promise (T : Type) : Type :=
| pending
| fulfilled (v : T)
| rejected (reason : JsError).
Arguments pending {T}.
Arguments fulfilled {T} v.
Arguments rejected {T} reason.

(** The [resolve] and [reject] functions handed to a promise executor: they
    settle a pending promise and do nothing on a settled one. *)
Definition resolve_fn {T} (v : T) (p : Promise T) : Promise T :=
  match p with pending => fulfilled v | _ => p end.

Definition reject_fn {T} (reason : JsError) (p : Promise T) : Promise T :=
  match p with pending => rejected reason | _ => p end.

Definition settled {T} (p : Promise T) : bool :=
  match p with pending => false | _ => true end.

(** Methods a native Promise instance answers to (Promise.prototype).  The
    executor's [resolve]/[reject] are not among them. *)
Definition Promise_prototype : list string := ["then"; "catch"; "finally"].

Definition has_method (prototype : list string) (name : string) : bool :=
  existsb (String.eqb name) prototype.

(** Node Buffers are byte sequences; a byte is an integer in [0, 256). *)
Definition Buffer : Type := list Z.

Definition le_bytes (v : Z) : Buffer :=
  [ Z.land v 255;
    Z.land (Z.shiftr v 8) 255;
    Z.land (Z.shiftr v 16) 255;
    Z.land (Z.shiftr v 24) 255 ].

(** [buf.writeUInt32LE(value)] and [buf.writeInt32LE(value)] on a large enough
    buffer: four little-endian bytes, or ERR_OUT_OF_RANGE. *)
Definition writeUInt32LE (value : Z) : Completion Buffer :=
  if ((0 <=? value) && (value <? 2 ^ 32))%Z then Normal (le_bytes value)
  else Throw (RangeError "ERR_OUT_OF_RANGE").

Definition writeInt32LE (value : Z) : Completion Buffer :=
  if ((- 2 ^ 31 <=? value) && (value <? 2 ^ 31))%Z then Normal (le_bytes value)
  else Throw (RangeError "ERR_OUT_OF_RANGE").

(** ** RequestState.js *)

Definition ref : Type := nat.

Record Request : Type := mkRequest {
  classType : string;
  className : string;
}.

(** [resolve] and [reject] of the source are the executor functions of
    [promise], kept on the state object itself; they are [RequestState_resolve]
    and [RequestState_reject] below.  [result] is always [undefined] and is
    left out.  [after] refers to another RequestState. *)
Record RequestState : Type := mkRequestState {
  containerId : option Z;
  msgId : option Z;
  request : Request;
  data : Buffer;
  after : option ref;
  promise : Promise Z;
}.

(** [new RequestState(request, after)], with [request.getBytes()] given. *)
Definition RequestState_new (req : Request) (bytes : Buffer) (aft : option ref)
  : RequestState :=
  {| containerId := None; msgId := None; request := req; data := bytes;
     after := aft; promise := pending |}.

Definition set_msgId (id : Z) (s : RequestState) : RequestState :=
  {| containerId := containerId s; msgId := Some id; request := request s;
     data := data s; after := after s; promise := promise s |}.

Definition set_containerId (id : Z) (s : RequestState) : RequestState :=
  {| containerId := Some id; msgId := msgId s; request := request s;
     data := data s; after := after s; promise := promise s |}.

Definition set_promise (p : Promise Z) (s : RequestState) : RequestState :=
  {| containerId := containerId s; msgId := msgId s; request := request s;
     data := data s; after := after s; promise := p |}.

Definition RequestState_resolve (v : Z) (s : RequestState) : RequestState :=
  set_promise (resolve_fn v (promise s)) s.

Definition RequestState_reject (reason : JsError) (s : RequestState)
  : RequestState :=
  set_promise (reject_fn reason (promise s)) s.

(** The object store: every reference denotes a RequestState. *)
Definition Heap : Type := ref -> RequestState.

Definition heap_set (h : Heap) (r : ref) (s : RequestState) : Heap :=
  fun r' => if Nat.eqb r' r then s else h r'.

Definition heap_update (f : RequestState -> RequestState) (r : ref) (h : Heap)
  : Heap :=
  heap_set h r (f (h r)).

(** ** Collaborators of the packer that live outside the modelled files *)

(** [MTProtoState.writeDataAsMessage(buffer, data, contentRelated, afterId)]:
    the session object frames [data] into the writer [buffer] and returns the
    message id it assigned.  The session state and the writer are mutated, so
    both are threaded.  The call is taken to return: a session that throws is
    outside the model. *)
Class MTProtoState (St : Type) : Type := {
  writeDataAsMessage :
    St -> Buffer -> Buffer -> bool -> option Z -> St * Buffer * Z
}.

(** The constants of [tl/core]: [MessageContainer.MAXIMUM_SIZE],
    [MessageContainer.MAXIMUM_LENGTH], [TLMessage.SIZE_OVERHEAD] and
    [MessageContainer.CONSTRUCTOR_ID]. *)
Class TLCore : Type := {
  MAXIMUM_SIZE : nat;
  MAXIMUM_LENGTH : nat;
  SIZE_OVERHEAD : nat;
  CONSTRUCTOR_ID : Z
}.

(** ** MessagePacker.js *)
Module MessagePacker.

Inductive LogEntry : Type :=
| debug_assigned (id : Z) (name : string)
| warn_too_long (name : string) (len : nat).

Record t (St : Type) : Type := mk {
  _state : St;
  _queue : list ref;
  _pendingStates : list ref;
  _ready : Promise bool;
  _log : list LogEntry
}.
Arguments mk {St}.
Arguments _state {St}.
Arguments _queue {St}.
Arguments _pendingStates {St}.
Arguments _ready {St}.
Arguments _log {St}.

(** [constructor(state, logger)] *)
Definition new {St} (state : St) : t St :=
  mk state [] [] pending [].

Definition values {St} (p : t St) : list ref := _queue p.

(** [append(state)]: push on the tail, then [setReady(true)]. *)
Definition append {St} (state : ref) (p : t St) : t St :=
  mk (_state p) (_queue p ++ [state]) (_pendingStates p)
     (resolve_fn true (_ready p)) (_log p).

(** [extend(states)]: [append] each, in order. *)
Definition extend {St} (states : list ref) (p : t St) : t St :=
  foldl (fun q state => append state q) p states.

(** What [get] returns when it returns an object. *)
Record Packed : Type := mkPacked {
  batch : list ref;
  wire : Buffer   (* the [data] property *)
}.

(** The variables the [while] loop of [get] works on. *)
Record Frame (St : Type) : Type := mkFrame {
  f_heap : Heap;
  f_state : St;
  f_log : list LogEntry;
  f_buffer : Buffer;
  f_batch : list ref;
  f_size : nat
}.
Arguments mkFrame {St}.
Arguments f_heap {St}.
Arguments f_state {St}.
Arguments f_log {St}.
Arguments f_buffer {St}.
Arguments f_batch {St}.
Arguments f_size {St}.

(** How the loop ends: by its condition or [break] (with the queue that is
    left), or by an exception. *)
Inductive LoopExit (St : Type) : Type :=
| loop_done (queue : list ref) (f : Frame St)
| loop_threw (queue : list ref) (f : Frame St) (e : JsError).
Arguments loop_done {St}.
Arguments loop_threw {St}.

(** The frame the loop ends with, however it ends. *)
Definition exit_frame {St} (e : LoopExit St) : Frame St :=
  match e with
  | loop_done _ f => f
  | loop_threw _ f _ => f
  end.

Section WithCollaborators.
Context {St : Type} `{!MTProtoState St} `{!TLCore}.

(** [afterId]: [state.after.msgId] when [state.after] is set. *)
Definition afterId_of (h : Heap) (state : RequestState) : option Z :=
  match after state with
  | Some a => msgId (h a)
  | None => None
  end.

(** The [while] loop of [get], one iteration per queue element shifted.
    The recursion follows the queue: each iteration shifts one element
    and an [unshift] is only done right before [break].  The call is run to
    its end: nothing else touches the packer while it awaits the session.
    The name logged is [request.className]. *)
Fixpoint get_loop (queue : list ref) (f : Frame St) : LoopExit St :=
  match queue with
  | [] => loop_done [] f
  | r :: rest =>
    if length (f_batch f) <=? MAXIMUM_LENGTH then
      let state := f_heap f r in
      let size := f_size f + (length (data state) + SIZE_OVERHEAD) in
      if size <=? MAXIMUM_SIZE then
        let '(st', buffer', id) :=
          writeDataAsMessage (f_state f) (f_buffer f) (data state)
            (String.eqb (classType (request state)) "request")
            (afterId_of (f_heap f) state) in
        get_loop rest
          (mkFrame (heap_update (set_msgId id) r (f_heap f)) st'
             (f_log f ++ [debug_assigned id (className (request state))])
             buffer' (f_batch f ++ [r]) size)
      else if negb (length (f_batch f) =? 0) then
        (* this._queue.unshift(state); break *)
        loop_done (r :: rest)
          (mkFrame (f_heap f) (f_state f) (f_log f) (f_buffer f)
             (f_batch f) size)
      else
        let log' := f_log f ++ [warn_too_long (className (request state))
                                  (length (data state))] in
        (* state.promise.reject("Request Payload is too big") *)
        if has_method Promise_prototype "reject" then
          get_loop rest
            (mkFrame
               (heap_update
                  (RequestState_reject
                     (StringReason "Request Payload is too big")) r
                  (f_heap f))
               (f_state f) log' (f_buffer f) (f_batch f) 0)
        else
          loop_threw rest
            (mkFrame (f_heap f) (f_state f) log' (f_buffer f)
               (f_batch f) size)
            (TypeError "state.promise.reject is not a function")
    else loop_done (r :: rest) f
  end.

(** The eight-byte container header: constructor id, then entry count. *)
Definition container_header (count : nat) : Completion Buffer :=
  match writeUInt32LE CONSTRUCTOR_ID with
  | Throw e => Throw e
  | Normal b0 =>
    match writeInt32LE (Z.of_nat count) with
    | Throw e => Throw e
    | Normal b4 => Normal (b0 ++ b4)
    end
  end.

(** [for (const s of batch) s.containerId = containerId] *)
Definition set_container (id : Z) (batch : list ref) (h : Heap) : Heap :=
  foldl (fun h' s => heap_update (set_containerId id) s h') h batch.

Inductive Outcome : Type :=
| Suspended                       (* parked on [await this._ready] *)
| Returned (r : option Packed)    (* [null] or [{ batch, data }] *)
| Threw (e : JsError).

(** [get] from [let data;] to the end: what runs once the queue is known
    to be non-empty, at once or after the wake-up by [append]. *)
Definition get_body (h : Heap) (p : t St) : Heap * t St * Outcome :=
  match get_loop (_queue p)
          (mkFrame h (_state p) (_log p) [] [] 0) with
  | loop_threw queue f e =>
    (f_heap f,
     mk (f_state f) queue (_pendingStates p) (_ready p) (f_log f),
     Threw e)
  | loop_done queue f =>
    let p' st := mk st queue (_pendingStates p) (_ready p) (f_log f) in
    if length (f_batch f) =? 0 then
      (f_heap f, p' (f_state f), Returned None)
    else if 1 <? length (f_batch f) then
      match container_header (length (f_batch f)) with
      | Throw e => (f_heap f, p' (f_state f), Threw e)
      | Normal b =>
        let '(st', buffer', cid) :=
          writeDataAsMessage (f_state f) [] (b ++ f_buffer f) false None in
        (set_container cid (f_batch f) (f_heap f), p' st',
         Returned (Some (mkPacked (f_batch f) buffer')))
      end
    else
      (f_heap f, p' (f_state f),
       Returned (Some (mkPacked (f_batch f) (f_buffer f))))
  end.

(** [get()]: with an empty queue a fresh [_ready] promise is installed and
    awaited; [get_body] is its continuation. *)
Definition get (h : Heap) (p : t St) : Heap * t St * Outcome :=
  match _queue p with
  | [] =>
    (h, mk (_state p) [] (_pendingStates p) pending (_log p), Suspended)
  | _ :: _ => get_body h p
  end.

(** Successive [get] calls until the queue is empty, collecting the
    batches; [fuel] bounds the number of calls. *)
Fixpoint drain (fuel : nat) (h : Heap) (p : t St)
  : option (list (list ref) * Heap * t St) :=
  match _queue p with
  | [] => Some ([], h, p)
  | _ :: _ =>
    match fuel with
    | O => None
    | S fuel' =>
      match get h p with
      | (h', p', Returned (Some packed)) =>
        match drain fuel' h' p' with
        | Some (bs, h'', p'') => Some (batch packed :: bs, h'', p'')
        | None => None
        end
      | (h', p', Returned None) => drain fuel' h' p'
      | _ => None
      end
    end
  end.

(** A client of the packer calls its methods in some order. *)
Inductive Call : Type :=
| call_append (state : ref)
| call_extend (states : list ref)
| call_get.

Definition perform (w : Heap * t St) (c : Call) : Heap * t St :=
  match c with
  | call_append state => (w.1, append state w.2)
  | call_extend states => (w.1, extend states w.2)
  | call_get => (get w.1 w.2).1
  end.

Definition perform_all (calls : list Call) (w : Heap * t St)
  : Heap * t St :=
  foldl perform w calls.

(** The per-entry framing of a batch, as a fold: each entry is written
    with the [afterId] read from the heap at that moment and receives the
    id the session returns. *)
Fixpoint write_entries (entries : list ref) (h : Heap) (st : St)
  (buffer : Buffer) : Heap * St * Buffer :=
  match entries with
  | [] => (h, st, buffer)
  | r :: rest =>
    let state := h r in
    let '(st', buffer', id) :=
      writeDataAsMessage st buffer (data state)
        (String.eqb (classType (request state)) "request")
        (afterId_of h state) in
    write_entries rest (heap_update (set_msgId id) r h) st' buffer'
  end.

(** Sum over the entries of payload length plus per-entry overhead. *)
Definition batch_size (h : Heap) (entries : list ref) : nat :=
  foldr (fun r acc => length (data (h r)) + SIZE_OVERHEAD + acc) 0 entries.

(** An entry fits a packet on its own. *)
Definition within_limits (h : Heap) (r : ref) : Prop :=
  length (data (h r)) + SIZE_OVERHEAD <= MAXIMUM_SIZE.

(** *** [get] while other tasks append

    [get] awaits the session once for every entry it takes and once more for
    a container, and it may first await [_ready].  While it is suspended
    other tasks can call [append] and [extend]; the loop reads [this._queue]
    afresh at every test, so what they append is seen by the same call.
    [arrivals] lists, await by await in the order the call reaches them, the
    states appended while the call is suspended there; once the list is used
    up nothing more is appended.  Besides how it ends, a run reports [seen],
    the states appended while it ran, and the arrivals it did not reach. *)
Fixpoint get_loop_during (arrivals : list (list ref))
  : list ref -> Frame St -> list ref
    -> LoopExit St * list ref * list (list ref) :=
  fix scan (queue : list ref) (f : Frame St) (seen : list ref)
    {struct queue} : LoopExit St * list ref * list (list ref) :=
    match queue with
    | [] => (loop_done [] f, seen, arrivals)
    | r :: rest =>
      if length (f_batch f) <=? MAXIMUM_LENGTH then
        let state := f_heap f r in
        let size := f_size f + (length (data state) + SIZE_OVERHEAD) in
        if size <=? MAXIMUM_SIZE then
          let '(st', buffer', id) :=
            writeDataAsMessage (f_state f) (f_buffer f) (data state)
              (String.eqb (classType (request state)) "request")
              (afterId_of (f_heap f) state) in
          let f' :=
            mkFrame (heap_update (set_msgId id) r (f_heap f)) st'
              (f_log f ++ [debug_assigned id (className (request state))])
              buffer' (f_batch f ++ [r]) size in
          (* the [await]: what is appended meanwhile joins the queue *)
          match arrivals with
          | [] => scan rest f' seen
          | a :: arrivals' =>
            get_loop_during arrivals' (rest ++ a) f' (seen ++ a)
          end
        else if negb (length (f_batch f) =? 0) then
          (loop_done (r :: rest)
             (mkFrame (f_heap f) (f_state f) (f_log f) (f_buffer f)
                (f_batch f) size),
           seen, arrivals)
        else
          let log' := f_log f ++ [warn_too_long (className (request state))
                                    (length (data state))] in
          if has_method Promise_prototype "reject" then
            scan rest
              (mkFrame
                 (heap_update
                    (RequestState_reject
                       (StringReason "Request Payload is too big")) r
                    (f_heap f))
                 (f_state f) log' (f_buffer f) (f_batch f) 0)
              seen
          else
            (loop_threw rest
               (mkFrame (f_heap f) (f_state f) log' (f_buffer f)
                  (f_batch f) size)
               (TypeError "state.promise.reject is not a function"),
             seen, arrivals)
      else (loop_done (r :: rest) f, seen, arrivals)
    end.

(** What is appended during the [await] for the container, if the call gets
    there with arrivals left. *)
Definition next_arrival (arrivals : list (list ref)) : list ref :=
  match arrivals with
  | a :: _ => a
  | [] => []
  end.

(** [get] from [let data;] on, with arrivals.  Every [append] also calls
    [setReady(true)], which is how [_ready] ends as in [extend seen p]. *)
Definition get_body_during (arrivals : list (list ref)) (h : Heap) (p : t St)
  : Heap * t St * Outcome * list ref :=
  match get_loop_during arrivals (_queue p)
          (mkFrame h (_state p) (_log p) [] [] 0) [] with
  | (loop_threw queue f e, seen, _) =>
    (f_heap f,
     mk (f_state f) queue (_pendingStates p) (_ready (extend seen p)) (f_log f),
     Threw e, seen)
  | (loop_done queue f, seen, unread) =>
    let p' st q sn :=
      mk st q (_pendingStates p) (_ready (extend sn p)) (f_log f) in
    if length (f_batch f) =? 0 then
      (f_heap f, p' (f_state f) queue seen, Returned None, seen)
    else if 1 <? length (f_batch f) then
      match container_header (length (f_batch f)) with
      | Throw e => (f_heap f, p' (f_state f) queue seen, Threw e, seen)
      | Normal b =>
        let '(st', buffer', cid) :=
          writeDataAsMessage (f_state f) [] (b ++ f_buffer f) false None in
        let a := next_arrival unread in
        (set_container cid (f_batch f) (f_heap f),
         p' st' (queue ++ a) (seen ++ a),
         Returned (Some (mkPacked (f_batch f) buffer')), seen ++ a)
      end
    else
      (f_heap f, p' (f_state f) queue seen,
       Returned (Some (mkPacked (f_batch f) (f_buffer f))), seen)
  end.

(** [get()] with arrivals.  Called on an empty queue it parks on a new
    [_ready]; the first [append] wakes it, and by the time it goes on the
    first arrival [s :: a] has been appended.  With no such arrival it stays
    parked. *)
Definition get_during (arrivals : list (list ref)) (h : Heap) (p : t St)
  : Heap * t St * Outcome * list ref :=
  match _queue p with
  | [] =>
    let parked := mk (_state p) [] (_pendingStates p) pending (_log p) in
    match arrivals with
    | (s :: a) :: arrivals' =>
      let '(h', p', o, seen) :=
        get_body_during arrivals' h (extend (s :: a) parked) in
      (h', p', o, (s :: a) ++ seen)
    | _ => (h, parked, Suspended, [])
    end
  | _ :: _ => get_body_during arrivals h p
  end.

(** One consumer and any number of producers: the consumer calls [get] and
    awaits it before it calls [get] again, as a send loop does; the
    producers hand in states between two such calls or, as arrivals, during
    one. *)
Inductive Step : Type :=
| produce (states : list ref)
| consume (arrivals : list (list ref)).

(** What a run has done: the batches the consumer received, the states the
    producers handed in, both in order, and where heap and packer ended.  A
    [get] that stays parked or throws ends the run. *)
Fixpoint consumer_run (steps : list Step) (w : Heap * t St)
  : list (list ref) * list ref * (Heap * t St) :=
  match steps with
  | [] => ([], [], w)
  | produce states :: rest =>
    let '(batches, handed, w') := consumer_run rest (w.1, extend states w.2) in
    (batches, states ++ handed, w')
  | consume arrivals :: rest =>
    match get_during arrivals w.1 w.2 with
    | (h', p', Returned (Some packed), seen) =>
      let '(batches, handed, w') := consumer_run rest (h', p') in
      (batch packed :: batches, seen ++ handed, w')
    | (h', p', Returned None, seen) =>
      let '(batches, handed, w') := consumer_run rest (h', p') in
      (batches, seen ++ handed, w')
    | (h', p', _, seen) => ([], seen, (h', p'))
    end
  end.

(** Every state the producers of a run hold ready, handed in or not. *)
Definition offered (steps : list Step) : list ref :=
  flat_map (fun step =>
              match step with
              | produce states => states
              | consume arrivals => concat arrivals
              end) steps.

End WithCollaborators.

(** [rejectAll()]: rejects what is listed in [_pendingStates]. *)
Definition rejectAll {St} (h : Heap) (p : t St) : Heap :=
  foldl
    (fun h' r =>
       heap_update
         (RequestState_reject
            (Error ("Disconnect (caused from "
                      +:+ className (request (h' r)) +:+ ")")))
         r h')
    h (_pendingStates p).

End MessagePacker.

(** ** real-cancellable-promise: pseudoCancellable *)
Module RealCancellablePromise.

(** What the closure variable [rejectFn] currently holds. *)
Inductive RejectFn : Type :=
| noop
| reject_newPromise.

(** Everything a [pseudoCancellable(promise)] call creates or captures: the
    wrapped [promise], whether the reaction registered by [promise.then] has
    been run by the job queue, the closure variables [canceled] and
    [rejectFn], and [newPromise], the promise the waiter awaits. *)
Record Task (T : Type) : Type := mkTask {
  underlying : Promise T;
  reacted : bool;
  canceled : bool;
  rejectFn : RejectFn;
  newPromise : Promise T
}.
Arguments mkTask {T}.
Arguments underlying {T}.
Arguments reacted {T}.
Arguments canceled {T}.
Arguments rejectFn {T}.
Arguments newPromise {T}.

Definition canceled_message : string := "Promise canceled.".

(** [pseudoCancellable(promise)]: the executor stores [reject] in [rejectFn]
    and registers the two reactions; none has run yet. *)
Definition pseudoCancellable {T} (promise : Promise T) : Task T :=
  mkTask promise false false reject_newPromise pending.

(** The first callback given to [promise.then]. *)
Definition onFulfilled {T} (result : T) (t : Task T) : Task T :=
  if negb (canceled t) then
    mkTask (underlying t) (reacted t) (canceled t) noop
      (resolve_fn result (newPromise t))
  else t.

(** The second callback given to [promise.then]. *)
Definition onRejected {T} (e : JsError) (t : Task T) : Task T :=
  if negb (canceled t) then
    mkTask (underlying t) (reacted t) (canceled t) (rejectFn t)
      (reject_fn e (newPromise t))
  else t.

(** [cancel()] *)
Definition cancel {T} (t : Task T) : Task T :=
  let p := match rejectFn t with
           | noop => newPromise t
           | reject_newPromise =>
             reject_fn (Cancellation canceled_message) (newPromise t)
           end in
  mkTask (underlying t) (reacted t) true (rejectFn t) p.

(** What can happen to a task: the wrapped operation completes (which
    settles [promise] and queues its reaction), the job queue runs the
    queued reaction, or somebody calls [cancel]. *)
Inductive Event (T : Type) : Type :=
| settle_ok (result : T)
| settle_err (e : JsError)
| run_reaction
| call_cancel.
Arguments settle_ok {T}.
Arguments settle_err {T}.
Arguments run_reaction {T}.
Arguments call_cancel {T}.

Definition with_underlying {T} (p : Promise T) (t : Task T) : Task T :=
  mkTask p (reacted t) (canceled t) (rejectFn t) (newPromise t).

Definition react {T} (t : Task T) : Task T :=
  if reacted t then t
  else
    let t' := mkTask (underlying t) true (canceled t) (rejectFn t)
                (newPromise t) in
    match underlying t with
    | pending => t
    | fulfilled v => onFulfilled v t'
    | rejected e => onRejected e t'
    end.

Definition step {T} (t : Task T) (ev : Event T) : Task T :=
  match ev with
  | settle_ok v => with_underlying (resolve_fn v (underlying t)) t
  | settle_err e => with_underlying (reject_fn e (underlying t)) t
  | run_reaction => react t
  | call_cancel => cancel t
  end.

Definition run {T} (evs : list (Event T)) (t : Task T) : Task T :=
  foldl step t evs.

(** The wrapped operation seen alone, with no wrapper around it. *)
Definition run_underlying {T} (evs : list (Event T)) (p : Promise T)
  : Promise T :=
  foldl (fun q ev =>
           match ev with
           | settle_ok v => resolve_fn v q
           | settle_err e => reject_fn e q
           | _ => q
           end) p evs.

(** The invariant of a task whose wrapped promise is still pending: the
    waiter's promise is either untouched or already rejected by a
    cancellation. *)
Definition waiting {T} (t : Task T) : Prop :=
  underlying t = pending ->
  (canceled t = false /\ rejectFn t = reject_newPromise
   /\ newPromise t = pending)
  \/ (canceled t = true
      /\ newPromise t = rejected (Cancellation canceled_message)).

(** [CancellablePromise.delay(ms)]: the closure variables [timer] and
    [rejectFn] and the promise.  [timer] is kept as "the timeout is scheduled
    and has neither fired nor been cleared". *)
Record Delay : Type := mkDelay {
  timer : bool;
  delay_rejectFn : RejectFn;
  delay_promise : Promise unit
}.

(** [delay(ms)]: the executor schedules the timeout and stores [reject]. *)
Definition delay : Delay := mkDelay true reject_newPromise pending.

(** The timeout callback: [resolve(); rejectFn = noop]. *)
Definition timeout_callback (d : Delay) : Delay :=
  mkDelay false noop (resolve_fn () (delay_promise d)).

(** The cancel function: [if (timer) clearTimeout(timer);
    rejectFn(new Cancellation())]. *)
Definition delay_cancel (d : Delay) : Delay :=
  mkDelay false (delay_rejectFn d)
    (match delay_rejectFn d with
     | noop => delay_promise d
     | reject_newPromise =>
       reject_fn (Cancellation canceled_message) (delay_promise d)
     end).

Inductive DelayEvent : Type :=
| timer_expires      (* [ms] have passed: a scheduled timeout runs *)
| cancel_delay.      (* somebody calls [cancel] *)

Definition delay_step (d : Delay) (ev : DelayEvent) : Delay :=
  match ev with
  | timer_expires => if timer d then timeout_callback d else d
  | cancel_delay => delay_cancel d
  end.

Definition delay_run (evs : list DelayEvent) (d : Delay) : Delay :=
  foldl delay_step d evs.

(** The values [all], [allSettled] and [race] may be given, as far as
    [isPromiseWithCancel] tells them apart: what [typeof] says, and for an
    object whether its [then] and [cancel] are functions. *)
Inductive JsValue : Type :=
| js_undefined
| js_null
| js_primitive                  (* number, string, boolean, ... *)
| js_function
| js_object (then_is_function cancel_is_function : bool) (id : nat).

(** [isPromiseWithCancel(value)].  [typeof null] is ['object'], so for
    [null] the test goes on to read [value.then]. *)
Definition isPromiseWithCancel (value : JsValue) : Completion bool :=
  match value with
  | js_null => Throw (TypeError "Cannot read properties of null (reading 'then')")
  | js_object then_is_function cancel_is_function _ =>
    Normal (then_is_function && cancel_is_function)
  | _ => Normal false
  end.

(** The cancel function of [all(values)], [allSettled(values)] and
    [race(values)]: [for (const value of values) if
    (isPromiseWithCancel(value)) value.cancel()].  The result lists the
    objects whose [cancel] was called, in call order. *)
Fixpoint cancel_values (values : list JsValue) : list nat * Completion unit :=
  match values with
  | [] => ([], Normal ())
  | value :: rest =>
    match isPromiseWithCancel value with
    | Throw e => ([], Throw e)
    | Normal true =>
      let '(ids, c) := cancel_values rest in
      (match value with js_object _ _ id => id :: ids | _ => ids end, c)
    | Normal false => cancel_values rest
    end
  end.

(** The objects among [values] that have both a [then] and a [cancel]. *)
Definition with_cancel (values : list JsValue) : list nat :=
  flat_map (fun value =>
              match value with
              | js_object true true id => [id]
              | _ => []
              end) values.

End RealCancellablePromise.

(** ** Connection.js *)

(** The socket collaborator ([PromisedNetSockets] and the like). *)
Class Socket (Sock : Type) : Type := {
  socket_connect : Sock -> Sock * Completion unit;
  socket_write : Buffer -> Sock -> Sock * Completion unit;
  socket_close : Sock -> Sock * Completion unit
}.

Module Connection.
Import RealCancellablePromise.

Inductive LogEntry : Type :=
| log_debug (msg : string)
| log_info (msg : string)
| log_error (msg : string).

(** The fields the modelled methods touch.  [recvCancel] and [sendCancel]
    are not assigned by the constructor: they stay [undefined] ([None])
    until the loops assign them. *)
Record t (Sock : Type) : Type := mk {
  _connected : bool;
  recvCancel : option (Task (option Buffer));
  sendCancel : option (Task (option Buffer));
  socket : Sock;
  _log : list LogEntry
}.
Arguments mk {Sock}.
Arguments _connected {Sock}.
Arguments recvCancel {Sock}.
Arguments sendCancel {Sock}.
Arguments socket {Sock}.
Arguments _log {Sock}.

(** [constructor({ ..., socket, ... })] *)
Definition new {Sock} (sock : Sock) : t Sock :=
  mk false None None sock [].

Definition undefined_cancel : JsError :=
  TypeError "Cannot read properties of undefined (reading 'cancel')".

Section WithSocket.
Context {Sock : Type} `{!Socket Sock}.

(** [_initConn()]: writes the codec tag when there is one. *)
Definition _initConn (tag : option Buffer) (sock : Sock)
  : Sock * Completion unit :=
  match tag with
  | Some bytes => socket_write bytes sock
  | None => (sock, Normal ())
  end.

(** [connect()]: [_connect()], then the flag, then both loops, each of
    which runs up to its first [await] and so installs its
    pseudo-cancellable task. *)
Definition connect (tag : option Buffer) (c : t Sock)
  : t Sock * Completion unit :=
  let log1 := _log c ++ [log_debug "Connecting"] in
  match socket_connect (socket c) with
  | (s1, Throw e) =>
    (mk (_connected c) (recvCancel c) (sendCancel c) s1 log1, Throw e)
  | (s1, Normal _) =>
    let log2 := log1 ++ [log_debug "Finished connecting"] in
    match _initConn tag s1 with
    | (s2, Throw e) =>
      (mk (_connected c) (recvCancel c) (sendCancel c) s2 log2, Throw e)
    | (s2, Normal _) =>
      (mk true (Some (pseudoCancellable pending))
          (Some (pseudoCancellable pending)) s2 log2, Normal ())
    end
  end.

(** [_cancelLoops()]: [this.recvCancel.cancel(); this.sendCancel.cancel()] *)
Definition _cancelLoops (c : t Sock) : t Sock * Completion unit :=
  match recvCancel c with
  | None => (c, Throw undefined_cancel)
  | Some rt =>
    let c1 := mk (_connected c) (Some (cancel rt)) (sendCancel c)
                (socket c) (_log c) in
    match sendCancel c1 with
    | None => (c1, Throw undefined_cancel)
    | Some st =>
      (mk (_connected c1) (recvCancel c1) (Some (cancel st))
          (socket c1) (_log c1), Normal ())
    end
  end.

(** [disconnect()] *)
Definition disconnect (c : t Sock) : t Sock * Completion unit :=
  let c0 := mk false (recvCancel c) (sendCancel c) (socket c) (_log c) in
  match _cancelLoops c0 with
  | (c1, Throw e) => (c1, Throw e)
  | (c1, Normal _) =>
    match socket_close (socket c1) with
    | (s', Normal _) =>
      (mk (_connected c1) (recvCancel c1) (sendCancel c1) s' (_log c1),
       Normal ())
    | (s', Throw _) =>
      (mk (_connected c1) (recvCancel c1) (sendCancel c1) s'
          (_log c1 ++ [log_error "error while closing socket connection"]),
       Normal ())
    end
  end.

End WithSocket.

Inductive RecvOutcome : Type :=
| recv_returned (result : Buffer)
| recv_threw (e : JsError)
| recv_awaiting.            (* parked on [await this._recvArray.pop()] *)

(** [result && result.length] *)
Definition nonempty_result (result : option Buffer) : bool :=
  match result with
  | Some bytes => negb (length bytes =? 0)
  | None => false
  end.

(** The loop of [recv()].  The inbound queue belongs to [AsyncQueue]; what
    the loop sees of it is, for each [await this._recvArray.pop()], the value
    the pop produced and the value [this._connected] has when the loop
    tests it next (other tasks run during the [await]). *)
Fixpoint recv_loop (connected : bool) (pops : list (option Buffer * bool))
  : RecvOutcome :=
  if connected then
    match pops with
    | [] => recv_awaiting
    | (result, connected') :: rest =>
      match result with
      | Some bytes =>
        if nonempty_result result then recv_returned bytes
        else recv_loop connected' rest
      | None => recv_loop connected' rest
      end
    end
  else recv_threw (Error "Not connected").

(** [recv()] *)
Definition recv {Sock} (c : t Sock) (pops : list (option Buffer * bool))
  : RecvOutcome :=
  recv_loop (_connected c) pops.

(** The queue class of [extensions], as far as [send] uses it. *)
Class AsyncQueue (Q : Type) : Type := {
  queue_push : option Buffer -> Q -> Q * Completion unit
}.

(** [send(data)], on the outbound queue [_sendArray]. *)
Definition send {Sock Q} `{!AsyncQueue Q} (c : t Sock) (_sendArray : Q)
  (data : Buffer) : Q * Completion unit :=
  if negb (_connected c) then (_sendArray, Throw (Error "Not connected"))
  else queue_push (Some data) _sendArray.

(** A pop that [recv] passes over and after which it finds the connection
    still connected: the pop yielded [undefined] or an empty buffer, and the
    flag is up when the loop tests it next. *)
Definition passed_over (pop : option Buffer * bool) : Prop :=
  (pop.1 = None \/ pop.1 = Some []) /\ pop.2 = true.

End Connection.

(** ** client/updates.js *)
Module Updates.

(** [client._eventBuilders]: pairs [[event, callback]].  Events and callbacks
    are objects and are compared by identity, so each is a reference. *)
Definition EventBuilders : Type := list (ref * ref).

(** [addEventHandler(client, callback, event)].  Without an event a new
    [Raw] event is made: [raw] is that new object.  (The assignment
    [event.client = client] concerns the event object, not the list.) *)
Definition addEventHandler (raw : ref) (callback : ref) (event : option ref)
  (builders : EventBuilders) : EventBuilders :=
  builders ++ [(match event with Some e => e | None => raw end, callback)].

(** [x !== y] for a stored object [x] and an argument [y] that may be
    [undefined]. *)
Definition differs (x : ref) (y : option ref) : bool :=
  match y with
  | Some y' => negb (Nat.eqb x y')
  | None => true
  end.

(** [removeEventHandler(client, callback, event)]: keeps the items with
    [item[0] !== event && item[1] !== callback]. *)
Definition removeEventHandler (callback event : option ref)
  (builders : EventBuilders) : EventBuilders :=
  List.filter (fun item => differs item.1 event && differs item.2 callback)
    builders.

(** [listEventHandlers(client)] *)
Definition listEventHandlers (builders : EventBuilders) : EventBuilders :=
  builders.

(** What an [attempts] call did: how it completed ([None] is [undefined]),
    how often it called [cb] and how often it slept. *)
Record Attempts (V : Type) : Type := mkAttempts {
  outcome : Completion (option V);
  calls : nat;
  sleeps : nat
}.
Arguments mkAttempts {V}.
Arguments outcome {V}.
Arguments calls {V}.
Arguments sleeps {V}.

(** The [for] loop of [attempts(cb, times, pause)] from index [i]; [cb k] is
    how the call of [cb] made at index [k] completes.  [fuel] bounds the
    iterations left. *)
Fixpoint attempts_from {V} (cb : nat -> Completion V) (times i fuel : nat)
  : Attempts V :=
  match fuel with
  | O => mkAttempts (Normal None) 0 0
  | S fuel' =>
    if i <? times then
      match cb i with
      | Normal v => mkAttempts (Normal (Some v)) 1 0
      | Throw err =>
        if i =? times - 1 then mkAttempts (Throw err) 1 0
        else
          let r := attempts_from cb times (S i) fuel' in
          mkAttempts (outcome r) (S (calls r)) (S (sleeps r))
      end
    else mkAttempts (Normal None) 0 0
  end.

(** [attempts(cb, times, pause)]: the loop runs at most [times] times. *)
Definition attempts {V} (cb : nat -> Completion V) (times : nat) : Attempts V :=
  attempts_from cb times 0 times.

End Updates.

(** ** Concrete collaborators for the worked scenarios *)

(** A session whose ids count up from its state and whose frame is the id,
    the byte count and then the payload. *)
Definition counting_session : MTProtoState Z :=
  {| writeDataAsMessage st buffer payload _ _ :=
       ((st + 1)%Z,
        buffer ++ le_bytes (st + 1) ++ le_bytes (Z.of_nat (length payload))
          ++ payload,
        (st + 1)%Z) |}.

(** The limits of the spec's scenario: packets of at most 25 bytes, 4 bytes of
    overhead per entry. *)
Definition scenario_core : TLCore :=
  {| MAXIMUM_SIZE := 25; MAXIMUM_LENGTH := 100; SIZE_OVERHEAD := 4;
     CONSTRUCTOR_ID := 0x73f1f8dc |}.

(** Limits with a container of at most two entries. *)
Definition pair_core : TLCore :=
  {| MAXIMUM_SIZE := 200; MAXIMUM_LENGTH := 2; SIZE_OVERHEAD := 12;
     CONSTRUCTOR_ID := 0x73f1f8dc |}.

Definition ping : Request := mkRequest "request" "Ping".

(** A heap whose object at every reference is a fresh request carrying
    [bytes r] zero bytes. *)
Definition fresh_heap (bytes : ref -> nat) : Heap :=
  fun r => RequestState_new ping (replicate (bytes r) 0%Z) None.

(** A socket that counts the [close] calls it receives. *)
Definition counting_socket : Socket nat :=
  {| socket_connect s := (s, Normal ());
     socket_write _ s := (s, Normal ());
     socket_close s := (S s, Normal ()) |}.

(** A connection over the counting socket, connected and then disconnected
    once and twice. *)
Definition connected_once : Connection.t nat :=
  (@Connection.connect nat counting_socket None (Connection.new 0)).1.

Definition disconnected_once : Connection.t nat :=
  (@Connection.disconnect nat counting_socket connected_once).1.

Definition disconnected_twice : Connection.t nat :=
  (@Connection.disconnect nat counting_socket disconnected_once).1.

(** The spec's scenario: three requests of ten bytes each, appended to a new
    packer over the counting session, under [scenario_core]. *)
Definition ten_bytes : Heap := fresh_heap (fun _ => 10).

Definition three_queued : MessagePacker.t Z :=
  MessagePacker.extend [1; 2; 3] (MessagePacker.new 0%Z).

Definition scenario_get : Heap * MessagePacker.t Z * MessagePacker.Outcome :=
  @MessagePacker.get Z counting_session scenario_core ten_bytes three_queued.

(** Three one-byte requests under [pair_core]. *)
Definition one_byte : Heap := fresh_heap (fun _ => 1).

Definition pair_get : Heap * MessagePacker.t Z * MessagePacker.Outcome :=
  @MessagePacker.get Z counting_session pair_core one_byte three_queued.

(** A thirty-byte request followed by a ten-byte one, under
    [scenario_core]. *)
Definition big_then_small : Heap :=
  fresh_heap (fun r => if Nat.eqb r 1 then 30 else 10).

Definition two_queued : MessagePacker.t Z :=
  MessagePacker.extend [1; 2] (MessagePacker.new 0%Z).

(** Two one-byte requests under [pair_core]: a batch of two, wrapped. *)
Definition container_get
  : Heap * MessagePacker.t Z * MessagePacker.Outcome :=
  @MessagePacker.get Z counting_session pair_core one_byte two_queued.

(** What [container_get] returns as [data]: the session's frame for the
    container (id 3, 26 bytes), then the header (constructor id, count 2),
    then the two entry frames. *)
Definition container_wire : Buffer :=
  [3; 0; 0; 0; 26; 0; 0; 0; 220; 248; 241; 115; 2; 0; 0; 0;
   1; 0; 0; 0; 1; 0; 0; 0; 0; 2; 0; 0; 0; 1; 0; 0; 0; 0]%Z.

(** Two one-byte requests, the second of which is to be invoked after the
    first. *)
Definition chained : Heap :=
  fun r =>
    RequestState_new ping [0%Z] (if Nat.eqb r 2 then Some 1 else None).

(** An outbound queue kept as a list. *)
Definition list_queue : Connection.AsyncQueue (list (option Buffer)) :=
  {| Connection.queue_push x q := (q ++ [x], Normal ()) |}.

(** A callback that fails twice and then returns 7, and one that always
    fails, each time with another error. *)
Definition flaky (k : nat) : Completion nat :=
  if k <? 2 then Throw (Error "flaky") else Normal 7.

Definition failing (k : nat) : Completion nat :=
  Throw (Error (if k =? 2 then "third" else "earlier")).

(** A task whose wrapped promise was fulfilled with 7 and delivered. *)
Definition delivered_task : RealCancellablePromise.Task nat :=
  RealCancellablePromise.run
    [RealCancellablePromise.settle_ok 7; RealCancellablePromise.run_reaction]
    (RealCancellablePromise.pseudoCancellable pending).

(** Values of several kinds, two of them with [then] and [cancel]. *)
Definition mixed_values : list RealCancellablePromise.JsValue :=
  [RealCancellablePromise.js_object true true 1;
   RealCancellablePromise.js_primitive;
   RealCancellablePromise.js_object true false 2;
   RealCancellablePromise.js_undefined;
   RealCancellablePromise.js_object true true 3;
   RealCancellablePromise.js_function].

(** A consumer over [pair_core] and one-byte requests: its first [get] parks
    and is woken by request 1; requests 2 and 3 and then 4 are appended
    while it awaits the session; request 5 is handed in before its second
    [get]. *)
Definition busy_steps : list MessagePacker.Step :=
  [MessagePacker.consume [[1]; [2; 3]; [4]];
   MessagePacker.produce [5];
   MessagePacker.consume []].

Definition busy_run
  : list (list ref) * list ref * (Heap * MessagePacker.t Z) :=
  @MessagePacker.consumer_run Z counting_session pair_core busy_steps
    (one_byte, MessagePacker.new 0%Z).

(** The first [get] of that consumer. *)
Definition busy_get
  : Heap * MessagePacker.t Z * MessagePacker.Outcome * list ref :=
  @MessagePacker.get_during Z counting_session pair_core
    [[1]; [2; 3]; [4]] one_byte (MessagePacker.new 0%Z).

(** What that [get] puts on the wire: the frame of the container (id 4,
    35 bytes), the header (constructor id, count 3), the three entry
    frames. *)
Definition busy_wire : Buffer :=
  [4; 0; 0; 0; 35; 0; 0; 0; 220; 248; 241; 115; 3; 0; 0; 0;
   1; 0; 0; 0; 1; 0; 0; 0; 0; 2; 0; 0; 0; 1; 0; 0; 0; 0;
   3; 0; 0; 0; 1; 0; 0; 0; 0]%Z.

(** A connection whose receive loop still waits for a packet and whose send
    loop has just been handed a buffer by its queue. *)
Definition busy_connection : Connection.t nat :=
  Connection.mk true
    (Some (RealCancellablePromise.pseudoCancellable pending))
    (Some (RealCancellablePromise.run
             [RealCancellablePromise.settle_ok (Some [7%Z]);
              RealCancellablePromise.run_reaction]
             (RealCancellablePromise.pseudoCancellable pending)))
    0 [].

(** * Properties *)

(** ** Heap and runtime facts *)

Lemma Promise_has_no_reject : has_method Promise_prototype "reject" = false.
Proof. reflexivity. Qed.

Lemma heap_update_same f r h : heap_update f r h r = f (h r).
Proof. unfold heap_update, heap_set. by rewrite Nat.eqb_refl. Qed.

Lemma heap_update_other f r h r' : r' <> r -> heap_update f r h r' = h r'.
Proof.
  intros Hne. unfold heap_update, heap_set.
  by destruct (Nat.eqb_spec r' r).
Qed.

(** Assigning ids never touches the payload of any object. *)
Lemma data_set_msgId id r h r' : data (heap_update (set_msgId id) r h r') = data (h r').
Proof.
  destruct (decide (r' = r)) as [->|Hne].
  - by rewrite heap_update_same.
  - by rewrite heap_update_other.
Qed.

Lemma data_set_containerId id r h r' :
  data (heap_update (set_containerId id) r h r') = data (h r').
Proof.
  destruct (decide (r' = r)) as [->|Hne].
  - by rewrite heap_update_same.
  - by rewrite heap_update_other.
Qed.

(** ** The packer *)
Section PackerFacts.
Import MessagePacker.
Context {St : Type} `{!MTProtoState St} `{!TLCore}.

Lemma batch_size_app h xs ys :
  batch_size h (xs ++ ys) = batch_size h xs + batch_size h ys.
Proof.
  induction xs as [|x xs IH]; simpl; [done|].
  unfold batch_size in *. simpl. rewrite IH. lia.
Qed.

Lemma batch_size_ext h h' xs :
  (forall r, data (h' r) = data (h r)) ->
  batch_size h' xs = batch_size h xs.
Proof.
  intros Hd. induction xs as [|x xs IH]; [done|].
  unfold batch_size in *. simpl. by rewrite IH, Hd.
Qed.

Lemma write_entries_data entries : forall h st buffer r,
  data ((write_entries entries h st buffer).1.1 r) = data (h r).
Proof.
  induction entries as [|e entries IH]; intros h st buffer r; [done|].
  simpl. destruct (writeDataAsMessage _ _ _ _ _) as [[st' buffer'] id].
  rewrite IH. apply data_set_msgId.
Qed.

(** The loop ends here and takes nothing more. *)
Local Ltac loop_stops H :=
  injection H as <- <-; exists [];
  split_and!; [done | by rewrite app_nil_r | done].

(** A loop that ends without an exception has moved a prefix of the queue
    into the batch, in order, framing each entry as [write_entries] does;
    what it leaves is the rest of the queue. *)
Lemma get_loop_done queue : forall f queue' f',
  get_loop queue f = loop_done queue' f' ->
  exists taken,
    queue = taken ++ queue' /\
    f_batch f' = f_batch f ++ taken /\
    write_entries taken (f_heap f) (f_state f) (f_buffer f)
      = (f_heap f', f_state f', f_buffer f').
Proof.
  induction queue as [|r rest IH]; intros f queue' f' Hloop.
  - simpl in Hloop. loop_stops Hloop.
  - simpl in Hloop.
    destruct (length (f_batch f) <=? MAXIMUM_LENGTH); cycle 1.
    { loop_stops Hloop. }
    destruct (_ <=? MAXIMUM_SIZE).
    + destruct (writeDataAsMessage _ _ _ _ _) as [[st' buffer'] id] eqn:Hw.
      apply IH in Hloop as (taken & -> & Hb & Hwr). simpl in *.
      exists (r :: taken). split_and!; [done| |].
      * by rewrite Hb, <- app_assoc.
      * simpl. by rewrite Hw.
    + destruct (negb _).
      * loop_stops Hloop.
      * rewrite ?Promise_has_no_reject in Hloop. discriminate.
Qed.

(** The running [size] is the size of the batch and stays within the
    packet limit, so the batch of a finished loop does too. *)
Lemma get_loop_size queue : forall f queue' f',
  get_loop queue f = loop_done queue' f' ->
  f_size f = batch_size (f_heap f) (f_batch f) ->
  f_size f <= MAXIMUM_SIZE ->
  batch_size (f_heap f') (f_batch f') <= MAXIMUM_SIZE.
Proof.
  induction queue as [|r rest IH]; intros f queue' f' Hloop Hsz Hle.
  - simpl in Hloop. injection Hloop as <- <-. lia.
  - simpl in Hloop.
    destruct (length (f_batch f) <=? MAXIMUM_LENGTH); cycle 1.
    { injection Hloop as <- <-. lia. }
    destruct (Nat.leb_spec (f_size f + (length (data (f_heap f r)) + SIZE_OVERHEAD))
                MAXIMUM_SIZE) as [Hfit|Hover].
    + destruct (writeDataAsMessage _ _ _ _ _) as [[st' buffer'] id] eqn:Hw.
      apply IH in Hloop; [done| |simpl; lia]. simpl.
      rewrite (batch_size_ext (f_heap f)) by (intros; apply data_set_msgId).
      rewrite batch_size_app, Hsz. unfold batch_size at 3. simpl. lia.
    + destruct (negb _).
      * injection Hloop as <- <-. simpl. lia.
      * rewrite ?Promise_has_no_reject in Hloop. discriminate.
Qed.

(** The loop tests [batch.length <= MAXIMUM_LENGTH] before it adds an
    entry, so a batch grows to at most [MAXIMUM_LENGTH + 1] entries. *)
Lemma get_loop_length queue : forall f queue' f',
  get_loop queue f = loop_done queue' f' ->
  length (f_batch f) <= S MAXIMUM_LENGTH ->
  length (f_batch f') <= S MAXIMUM_LENGTH.
Proof.
  induction queue as [|r rest IH]; intros f queue' f' Hloop Hlen.
  - simpl in Hloop. by injection Hloop as <- <-.
  - simpl in Hloop.
    destruct (Nat.leb_spec (length (f_batch f)) MAXIMUM_LENGTH) as [Hroom|Hfull];
      cycle 1.
    { by injection Hloop as <- <-. }
    destruct (_ <=? MAXIMUM_SIZE).
    + destruct (writeDataAsMessage _ _ _ _ _) as [[st' buffer'] id] eqn:Hw.
      apply IH in Hloop; [done|]. simpl. rewrite length_app. simpl. lia.
    + destruct (negb _).
      * by injection Hloop as <- <-.
      * rewrite ?Promise_has_no_reject in Hloop. discriminate.
Qed.

End PackerFacts.

Section PackerCalls.
Import MessagePacker.
Context {St : Type} `{!MTProtoState St} `{!TLCore}.

Lemma extend_queue (states : list ref) : forall p : t St,
  _queue (extend states p) = _queue p ++ states.
Proof.
  unfold extend. induction states as [|s states IH]; intros p; simpl.
  - by rewrite app_nil_r.
  - rewrite IH. simpl. by rewrite <- app_assoc.
Qed.

Lemma extend_pendingStates (states : list ref) : forall p : t St,
  _pendingStates (extend states p) = _pendingStates p.
Proof.
  unfold extend. induction states as [|s states IH]; intros p; simpl; [done|].
  by rewrite IH.
Qed.

Lemma extend_state (states : list ref) : forall p : t St,
  _state (extend states p) = _state p.
Proof.
  unfold extend. induction states as [|s states IH]; intros p; simpl; [done|].
  by rewrite IH.
Qed.

Lemma get_body_pendingStates h (p : t St) :
  _pendingStates (get_body h p).1.2 = _pendingStates p.
Proof.
  unfold get_body.
  destruct (get_loop _ _) as [queue f|queue f e]; [|done].
  destruct (length (f_batch f) =? 0); [done|].
  destruct (1 <? length (f_batch f)); [|done].
  destruct (container_header _); [|done].
  by destruct (writeDataAsMessage _ _ _ _ _) as [[??]?].
Qed.

Lemma get_pendingStates h (p : t St) :
  _pendingStates (get h p).1.2 = _pendingStates p.
Proof.
  unfold get. destruct (_queue p); [done|]. apply get_body_pendingStates.
Qed.

(** No method of the packer ever adds to [_pendingStates]. *)
Lemma perform_all_pendingStates calls : forall w : Heap * t St,
  _pendingStates (perform_all calls w).2 = _pendingStates w.2.
Proof.
  unfold perform_all. induction calls as [|c calls IH]; intros w; [done|].
  simpl. rewrite IH.
  destruct c; simpl; [done|apply extend_pendingStates|apply get_pendingStates].
Qed.

Lemma get_nonempty h (p : t St) :
  _queue p <> [] -> get h p = get_body h p.
Proof. unfold get. by destruct (_queue p). Qed.

Lemma get_returned h (p : t St) h' p' r :
  get h p = (h', p', Returned r) -> get_body h p = (h', p', Returned r).
Proof. unfold get. by destruct (_queue p). Qed.

Lemma set_container_data cid batch : forall h r,
  data (set_container cid batch h r) = data (h r).
Proof.
  unfold set_container. induction batch as [|b batch IH]; intros h r; [done|].
  simpl. rewrite IH. apply data_set_containerId.
Qed.

Lemma set_container_sets cid batch : forall h r,
  r ∈ batch \/ containerId (h r) = Some cid ->
  containerId (set_container cid batch h r) = Some cid.
Proof.
  unfold set_container. induction batch as [|b batch IH]; intros h r Hr.
  - destruct Hr as [Hin|Hc]; [by apply elem_of_nil in Hin|done].
  - simpl. apply IH.
    destruct (decide (r = b)) as [->|Hne].
    + right. by rewrite heap_update_same.
    + rewrite heap_update_other by done.
      destruct Hr as [Hin|Hc]; [|by right].
      apply elem_of_cons in Hin as [?|?]; [done|by left].
Qed.

(** What a [get] that returns a batch has done: the loop ended normally with
    that batch, and either the batch is a single entry returned as framed,
    or it was wrapped: header, entries, framed once more by the session. *)
Lemma get_body_packed h (p : t St) h' p' packed :
  get_body h p = (h', p', Returned (Some packed)) ->
  exists f,
    get_loop (_queue p) (mkFrame h (_state p) (_log p) [] [] 0)
      = loop_done (_queue p') f /\
    batch packed = f_batch f /\
    ((length (f_batch f) = 1 /\ h' = f_heap f /\ wire packed = f_buffer f
      /\ _state p' = f_state f)
     \/ (1 < length (f_batch f) /\
         exists b cid,
           container_header (length (f_batch f)) = Normal b /\
           writeDataAsMessage (f_state f) [] (b ++ f_buffer f) false None
             = (_state p', wire packed, cid) /\
           h' = set_container cid (f_batch f) (f_heap f))).
Proof.
  unfold get_body. intros Hget.
  destruct (get_loop _ _) as [queue f|queue f e]; [|by inversion Hget].
  exists f.
  destruct (Nat.eqb_spec (length (f_batch f)) 0) as [|Hne]; [by inversion Hget|].
  destruct (Nat.ltb_spec 1 (length (f_batch f))) as [Hmany|Hone].
  - destruct (container_header _) as [b|e] eqn:Hb; [|by inversion Hget].
    destruct (writeDataAsMessage _ _ _ _ _) as [[st' buffer'] cid] eqn:Hw.
    inversion Hget; subst; simpl. split_and!; [done..|].
    right. split; [done|]. by exists b, cid.
  - inversion Hget; subst; simpl. split_and!; [done..|].
    left. split_and!; [lia|done..].
Qed.

End PackerCalls.

Section PackerClaims.
Import MessagePacker.
Context {St : Type} `{!MTProtoState St} `{!TLCore}.

Lemma container_header_inv count b :
  container_header count = Normal b ->
  b = le_bytes CONSTRUCTOR_ID ++ le_bytes (Z.of_nat count).
Proof.
  unfold container_header, writeUInt32LE, writeInt32LE.
  destruct (_ && _)%bool; [|done]. destruct (_ && _)%bool; [|done].
  by intros [= <-].
Qed.

Lemma container_header_ok count :
  (0 <= CONSTRUCTOR_ID < 2 ^ 32)%Z ->
  (Z.of_nat count < 2 ^ 31)%Z ->
  container_header count
    = Normal (le_bytes CONSTRUCTOR_ID ++ le_bytes (Z.of_nat count)).
Proof.
  intros Hid Hcount. unfold container_header, writeUInt32LE, writeInt32LE.
  destruct (Z.leb_spec 0 CONSTRUCTOR_ID); [|lia].
  destruct (Z.ltb_spec CONSTRUCTOR_ID (2 ^ 32)); [|lia].
  destruct (Z.leb_spec (- 2 ^ 31) (Z.of_nat count)); [|lia].
  destruct (Z.ltb_spec (Z.of_nat count) (2 ^ 31)); [|lia].
  done.
Qed.

(** When everything queued fits one packet and the batch has room by the
    loop's own test, the loop takes the whole queue. *)
Lemma get_loop_all queue : forall f,
  f_size f = batch_size (f_heap f) (f_batch f) ->
  f_size f + batch_size (f_heap f) queue <= MAXIMUM_SIZE ->
  length (f_batch f) + length queue <= S MAXIMUM_LENGTH ->
  exists f', get_loop queue f = loop_done [] f'
             /\ f_batch f' = f_batch f ++ queue.
Proof.
  induction queue as [|r rest IH]; intros f Hsz Hfit Hlen.
  - exists f. by rewrite app_nil_r.
  - simpl in Hlen. unfold batch_size in Hfit. simpl in Hfit.
    fold (batch_size (f_heap f) rest) in Hfit. simpl.
    destruct (Nat.leb_spec (length (f_batch f)) MAXIMUM_LENGTH); [|lia].
    destruct (Nat.leb_spec
                (f_size f + (length (data (f_heap f r)) + SIZE_OVERHEAD))
                MAXIMUM_SIZE); [|lia].
    destruct (writeDataAsMessage _ _ _ _ _) as [[st' buffer'] id].
    edestruct IH as (f' & -> & Hb); cycle 3.
    + exists f'. split; [done|]. rewrite Hb. simpl. by rewrite <- app_assoc.
    + simpl.
      rewrite (batch_size_ext (f_heap f)) by (intros; apply data_set_msgId).
      rewrite batch_size_app, Hsz. unfold batch_size at 3. simpl. lia.
    + simpl.
      rewrite (batch_size_ext (f_heap f)) by (intros; apply data_set_msgId).
      lia.
    + simpl. rewrite length_app. simpl. lia.
Qed.

(** C1: a batch returned by [get] has a total size, the sum over its
    entries of payload length plus [SIZE_OVERHEAD], of at most
    [MAXIMUM_SIZE].  ([get_body] is [get] from the point where the queue is
    known to be non-empty, so this covers every return of [get].) *)
Theorem batch_within_MAXIMUM_SIZE h (p : t St) h' p' packed :
  get_body h p = (h', p', Returned (Some packed)) ->
  batch_size h' (batch packed) <= MAXIMUM_SIZE.
Proof.
  intros (f & Hloop & -> & Hshape)%get_body_packed.
  apply get_loop_size in Hloop; [|done|simpl; lia].
  destruct Hshape as [(_ & -> & _)|(_ & b & cid & _ & _ & ->)]; [done|].
  by rewrite (batch_size_ext (f_heap f))
    by (intros; apply set_container_data).
Qed.

(** The bound the loop condition does give: one more than
    [MAXIMUM_LENGTH]. *)
Lemma batch_length_bound h (p : t St) h' p' packed :
  get_body h p = (h', p', Returned (Some packed)) ->
  length (batch packed) <= S MAXIMUM_LENGTH.
Proof.
  intros (f & Hloop & -> & _)%get_body_packed.
  apply get_loop_length in Hloop; [done|simpl; lia].
Qed.

(** C2 (what the code does): with [MAXIMUM_LENGTH + 1] entries queued that
    fit one packet together, [get] returns all of them in one batch, one
    entry more than [MAXIMUM_LENGTH]. *)
Theorem batch_exceeds_MAXIMUM_LENGTH h (st : St) (entries : list ref) :
  length entries = S MAXIMUM_LENGTH ->
  batch_size h entries <= MAXIMUM_SIZE ->
  (0 <= CONSTRUCTOR_ID < 2 ^ 32)%Z ->
  (Z.of_nat (S MAXIMUM_LENGTH) < 2 ^ 31)%Z ->
  exists h' p' packed,
    get h (extend entries (new st)) = (h', p', Returned (Some packed)) /\
    batch packed = entries /\
    MAXIMUM_LENGTH < length (batch packed).
Proof.
  intros Hlen Hfit Hid Hcount.
  rewrite get_nonempty; cycle 1.
  { rewrite extend_queue. simpl. by destruct entries. }
  unfold get_body. rewrite extend_queue, extend_state. simpl.
  destruct (get_loop_all entries (mkFrame h st (_log (extend entries (new st))) [] [] 0))
    as (f & -> & Hb); simpl; [done|lia|lia|].
  simpl in Hb. rewrite Hb, Hlen. simpl.
  destruct (Nat.ltb_spec 1 (S MAXIMUM_LENGTH)).
  - rewrite container_header_ok by done.
    destruct (writeDataAsMessage _ _ _ _ _) as [[st' buffer'] cid].
    eexists _, _, _. split; [done|]. simpl. split; [done|lia].
  - eexists _, _, _. split; [done|]. simpl. split; [done|lia].
Qed.

(** C7 (as the code has it): when the batch has more than one entry, the
    session is asked to frame, into a fresh writer, as not content-related
    and with no [afterId], the bytes made of the container header
    (constructor id, then entry count, both little-endian 32-bit) followed
    by the per-entry framed bytes; the returned bytes are what the session
    wrote for that, the id it returned is the container's, and every entry
    of the batch has it as [containerId]. *)
Theorem container_framing h (p : t St) h' p' packed :
  get_body h p = (h', p', Returned (Some packed)) ->
  1 < length (batch packed) ->
  exists h1 st1 entries_bytes cid,
    write_entries (batch packed) h (_state p) [] = (h1, st1, entries_bytes) /\
    writeDataAsMessage st1 []
      (le_bytes CONSTRUCTOR_ID
         ++ le_bytes (Z.of_nat (length (batch packed))) ++ entries_bytes)
      false None
      = (_state p', wire packed, cid) /\
    Forall (fun r => containerId (h' r) = Some cid) (batch packed).
Proof.
  intros (f & Hloop & Hbatch & Hshape)%get_body_packed Hmany.
  rewrite Hbatch in *.
  apply get_loop_done in Hloop as (taken & _ & Htaken & Hwrite).
  simpl in Htaken, Hwrite. rewrite Htaken in *.
  destruct Hshape as [(Hone & _)|(_ & b & cid & Hb & Hw & ->)]; [lia|].
  apply container_header_inv in Hb as ->.
  exists (f_heap f), (f_state f), (f_buffer f), cid.
  split_and!; [done|by rewrite <- app_assoc in Hw|].
  apply Forall_forall. intros r Hr.
  apply set_container_sets. by left.
Qed.

End PackerClaims.

Section PackerOrder.
Import MessagePacker.
Context {St : Type} `{!MTProtoState St} `{!TLCore}.

Lemma within_limits_ext h h' queue :
  (forall r, data (h' r) = data (h r)) ->
  Forall (within_limits h) queue -> Forall (within_limits h') queue.
Proof.
  intros Hd Hfit. eapply Forall_impl; [done|].
  intros r. unfold within_limits. by rewrite Hd.
Qed.

(** With entries that each fit a packet alone the loop never reaches the
    rejection branch, and it takes at least one entry. *)
Lemma get_loop_within queue : forall f,
  Forall (within_limits (f_heap f)) queue ->
  (f_batch f = [] -> f_size f = 0) ->
  exists queue' f',
    get_loop queue f = loop_done queue' f' /\
    (queue <> [] \/ f_batch f <> [] -> f_batch f' <> []).
Proof.
  induction queue as [|r rest IH]; intros f Hfit Hzero.
  - exists [], f. split; [done|]. by intros [?|?].
  - apply Forall_cons in Hfit as [Hr Hrest]. simpl.
    destruct (Nat.leb_spec (length (f_batch f)) MAXIMUM_LENGTH) as [Hroom|Hfull].
    + destruct (Nat.leb_spec
                  (f_size f + (length (data (f_heap f r)) + SIZE_OVERHEAD))
                  MAXIMUM_SIZE) as [Hin|Hover].
      * destruct (writeDataAsMessage _ _ _ _ _) as [[st' buffer'] id].
        edestruct IH as (queue' & f' & -> & Hne); cycle 2.
        { exists queue', f'. split; [done|]. intros _. apply Hne.
          right. simpl. by destruct (f_batch f). }
        { simpl. eapply within_limits_ext; [|done].
          intros; apply data_set_msgId. }
        { simpl. by destruct (f_batch f). }
      * destruct (f_batch f) as [|b bs] eqn:Hb.
        { unfold within_limits in Hr. rewrite Hzero in Hover by done. lia. }
        simpl. eexists _, _. split; [done|]. done.
    + eexists _, _. split; [done|]. intros _.
      destruct (f_batch f); [simpl in Hfull; lia|done].
Qed.

(** One [get] on a non-empty queue of fitting entries: it returns a
    non-empty batch that is a prefix of the queue and keeps the rest. *)
Lemma get_within h (p : t St) :
  (0 <= CONSTRUCTOR_ID < 2 ^ 32)%Z ->
  (Z.of_nat (S MAXIMUM_LENGTH) < 2 ^ 31)%Z ->
  Forall (within_limits h) (_queue p) ->
  _queue p <> [] ->
  exists h' p' packed,
    get h p = (h', p', Returned (Some packed)) /\
    batch packed <> [] /\
    _queue p = batch packed ++ _queue p' /\
    (forall r, data (h' r) = data (h r)).
Proof.
  intros Hid Hcount Hfit Hne. rewrite get_nonempty by done.
  unfold get_body.
  destruct (get_loop_within (_queue p) (mkFrame h (_state p) (_log p) [] [] 0))
    as (queue' & f & Hloop & Hsome); [done..|].
  rewrite Hloop.
  pose proof (get_loop_length _ _ _ _ Hloop) as Hlen.
  apply get_loop_done in Hloop as (taken & Hq & Hb & Hw).
  simpl in Hlen, Hb, Hw. specialize (Hlen ltac:(lia)).
  specialize (Hsome (or_introl Hne)).
  assert (forall r, data (f_heap f r) = data (h r)) as Hdata.
  { intros r. pose proof (write_entries_data taken h (_state p) [] r) as Hd.
    by rewrite Hw in Hd. }
  destruct (Nat.eqb_spec (length (f_batch f)) 0) as [Hz|_].
  { by destruct (f_batch f). }
  destruct (1 <? length (f_batch f)).
  - rewrite container_header_ok by (done || lia).
    destruct (writeDataAsMessage _ _ _ _ _) as [[st' buffer'] cid].
    eexists _, _, _. split; [done|]. simpl. split_and!; [done| |].
    + by rewrite Hb.
    + intros r. by rewrite set_container_data.
  - eexists _, _, _. split; [done|]. simpl. split_and!; [done| |done].
    by rewrite Hb.
Qed.

(** Calling [get] until the queue is empty hands out the queue in order. *)
Lemma drain_within fuel : forall h (p : t St),
  (0 <= CONSTRUCTOR_ID < 2 ^ 32)%Z ->
  (Z.of_nat (S MAXIMUM_LENGTH) < 2 ^ 31)%Z ->
  length (_queue p) <= fuel ->
  Forall (within_limits h) (_queue p) ->
  exists batches h' p',
    drain fuel h p = Some (batches, h', p') /\
    concat batches = _queue p /\
    _queue p' = [].
Proof.
  induction fuel as [|fuel IH]; intros h p Hid Hcount Hlen Hfit.
  - destruct (_queue p) eqn:Hq; [|simpl in Hlen; lia].
    exists [], h, p. simpl. by rewrite Hq.
  - destruct (_queue p) as [|r rest] eqn:Hq.
    { exists [], h, p. simpl. by rewrite Hq. }
    destruct (get_within h p) as (h' & p' & packed & Hget & Hne & Hsplit & Hd);
      [done|done|by rewrite Hq|by rewrite Hq|].
    rewrite Hq in Hsplit.
    destruct (IH h' p') as (bs & h'' & p'' & Hdrain & Hcat & Hempty);
      [done|done| | |].
    { apply (f_equal length) in Hsplit. rewrite length_app in Hsplit.
      destruct (batch packed); [done|]. simpl in Hsplit, Hlen. lia. }
    { rewrite Hsplit in Hfit. apply Forall_app in Hfit as [_ Hrest].
      by eapply within_limits_ext. }
    exists (batch packed :: bs), h'', p''.
    simpl. rewrite Hq, Hget, Hdrain. simpl. by rewrite Hcat, Hsplit.
Qed.

(** C6: once the appended entries each fit a packet, successive [get]
    calls return them all, and the batches put end to end are the entries
    in the order they were appended; in any [get] that returns a batch the
    batch and the queue left behind make up the queue as it was, so the
    entry that did not fit is the next head, neither moved nor lost. *)
Theorem fifo_order h (st : St) (entries : list ref) :
  (0 <= CONSTRUCTOR_ID < 2 ^ 32)%Z ->
  (Z.of_nat (S MAXIMUM_LENGTH) < 2 ^ 31)%Z ->
  Forall (within_limits h) entries ->
  (exists batches h' p',
     drain (length entries) h (extend entries (new st))
       = Some (batches, h', p') /\
     concat batches = entries /\
     _queue p' = []) /\
  (forall h0 (p0 : t St) h1 p1 packed,
     get_body h0 p0 = (h1, p1, Returned (Some packed)) ->
     _queue p0 = batch packed ++ _queue p1).
Proof.
  intros Hid Hcount Hfit. split.
  - destruct (drain_within (length entries) h (extend entries (new st)))
      as (bs & h' & p' & Hdrain & Hcat & Hempty);
      [done|done|by rewrite extend_queue|by rewrite extend_queue|].
    exists bs, h', p'. by rewrite extend_queue in Hcat.
  - intros h0 p0 h1 p1 packed (f & Hloop & -> & _)%get_body_packed.
    apply get_loop_done in Hloop as (taken & -> & -> & _). done.
Qed.

(** C3 (what the code does): whatever has been appended, extended or got
    since the packer was built, [rejectAll] changes no request: the list it
    walks, [_pendingStates], is still the empty one of the constructor. *)
Theorem rejectAll_rejects_nothing (calls : list Call) h (st : St) :
  let w := perform_all calls (h, new st) in
  _pendingStates w.2 = [] /\ rejectAll w.1 w.2 = w.1.
Proof.
  simpl. pose proof (perform_all_pendingStates calls (h, new st)) as Hp.
  simpl in Hp. split; [done|]. unfold rejectAll. by rewrite Hp.
Qed.

(** A request that is queued when [rejectAll] runs keeps its promise
    pending. *)
Example queued_request_survives_rejectAll :
  1 ∈ _queue three_queued /\
  promise (rejectAll ten_bytes three_queued 1) = pending.
Proof. split; [apply list_elem_of_here|reflexivity]. Qed.

(** C4 (what the code does): when the entry at the head of the queue is
    larger than a packet, [get] ends in the TypeError raised by calling
    [state.promise.reject]: the heap, and with it the entry's promise, is
    as before, the entry is gone from the queue and the entries behind it
    stay queued, unbatched. *)
Theorem oversized_head_throws h (p : t St) r rest :
  _queue p = r :: rest ->
  MAXIMUM_SIZE < length (data (h r)) + SIZE_OVERHEAD ->
  get h p =
    (h,
     mk (_state p) rest (_pendingStates p) (_ready p)
        (_log p ++ [warn_too_long (className (request (h r)))
                      (length (data (h r)))]),
     Threw (TypeError "state.promise.reject is not a function")).
Proof.
  intros Hq Hbig. unfold get, get_body. rewrite Hq. simpl.
  destruct (Nat.leb_spec (length (data (h r)) + SIZE_OVERHEAD) MAXIMUM_SIZE);
    [lia|done].
Qed.

End PackerOrder.

Section Scenario.
Import MessagePacker.
Context {St : Type} `{!MTProtoState St}.

(** C5 (as the code has it): with entries of 10, 10 and 10 bytes, packets
    of at most 25 bytes and 4 bytes of overhead per entry, one [get]
    returns a batch of exactly the first entry, framed alone with no
    container around it, and leaves the second and third entries queued in
    that order. *)
Theorem scenario_first_entry_alone h (st : St) r1 r2 r3 :
  length (data (h r1)) = 10 ->
  length (data (h r2)) = 10 ->
  length (data (h r3)) = 10 ->
  exists h' p' buffer,
    @get St _ scenario_core h (extend [r1; r2; r3] (new st))
      = (h', p', Returned (Some (mkPacked [r1] buffer))) /\
    _queue p' = [r2; r3] /\
    write_entries [r1] h st [] = (h', _state p', buffer).
Proof.
  intros H1 H2 _. unfold get, get_body.
  cbn [extend foldl append new _queue _state _log app get_loop f_batch
       f_size f_heap f_state f_buffer f_log length].
  rewrite H1.
  cbn [Nat.leb Nat.add MAXIMUM_LENGTH MAXIMUM_SIZE SIZE_OVERHEAD
       scenario_core].
  destruct (writeDataAsMessage _ _ _ _ _) as [[st' buffer'] id] eqn:Hw.
  cbn [app length Nat.leb]. rewrite data_set_msgId, H2. simpl.
  eexists _, _, _. split_and!; [done|done|].
  by rewrite Hw.
Qed.

End Scenario.

(** The scenario, run: the batch is the first entry alone. *)
Lemma scenario_get_result :
  scenario_get.2
  = MessagePacker.Returned
      (Some (MessagePacker.mkPacked [1]
               (le_bytes 1 ++ le_bytes 10 ++ replicate 10 0%Z)))
  /\ MessagePacker._queue scenario_get.1.2 = [2; 3].
Proof. split; reflexivity. Qed.

(** C5, as stated, fails: on the scenario [get] does not return the first two
    entries with the third left queued. *)
Lemma scenario_two_entries_counterexample :
  ~ (exists packed,
       scenario_get.2 = MessagePacker.Returned (Some packed) /\
       MessagePacker.batch packed = [1; 2] /\
       MessagePacker._queue scenario_get.1.2 = [3]).
Proof.
  intros (packed & Hret & Hbatch & _).
  destruct scenario_get_result as [Hres _].
  rewrite Hres in Hret. injection Hret as <-. discriminate Hbatch.
Qed.

Lemma scenario_first_entry_alone_witness :
  exists h' p' buffer,
    scenario_get
      = (h', p', MessagePacker.Returned
                   (Some (MessagePacker.mkPacked [1] buffer))) /\
    MessagePacker._queue p' = [2; 3] /\
    @MessagePacker.write_entries Z counting_session [1] ten_bytes 0%Z []
      = (h', MessagePacker._state p', buffer).
Proof.
  apply (@scenario_first_entry_alone Z counting_session ten_bytes 0%Z 1 2 3);
    reflexivity.
Defined.

(** C7, as stated, fails: under the counting session the bytes returned for a
    batch of two start with the frame the session wrote for the container
    (its id and byte count), not with the container header. *)
Lemma container_wire_counterexample :
  exists packed,
    container_get.2 = MessagePacker.Returned (Some packed) /\
    1 < length (MessagePacker.batch packed) /\
    take 8 (MessagePacker.wire packed)
      <> le_bytes (@CONSTRUCTOR_ID pair_core)
           ++ le_bytes (Z.of_nat (length (MessagePacker.batch packed))).
Proof.
  exists (MessagePacker.mkPacked [1; 2] container_wire).
  split; [reflexivity|]. split; [simpl; lia|].
  vm_compute. discriminate.
Qed.

Lemma batch_within_MAXIMUM_SIZE_witness :
  @MessagePacker.batch_size scenario_core scenario_get.1.1 [1] <= 25.
Proof.
  apply (@batch_within_MAXIMUM_SIZE Z counting_session scenario_core
           ten_bytes three_queued scenario_get.1.1 scenario_get.1.2
           (MessagePacker.mkPacked [1]
              (le_bytes 1 ++ le_bytes 10 ++ replicate 10 0%Z))).
  reflexivity.
Defined.

Lemma batch_exceeds_MAXIMUM_LENGTH_witness :
  exists h' p' packed,
    pair_get = (h', p', MessagePacker.Returned (Some packed)) /\
    MessagePacker.batch packed = [1; 2; 3] /\
    2 < length (MessagePacker.batch packed).
Proof.
  apply (@batch_exceeds_MAXIMUM_LENGTH Z counting_session pair_core
           one_byte 0%Z [1; 2; 3]).
  - reflexivity.
  - vm_compute. lia.
  - simpl. lia.
  - simpl. lia.
Defined.

Lemma container_framing_witness :
  exists h1 st1 entries_bytes cid,
    @MessagePacker.write_entries Z counting_session [1; 2] one_byte 0%Z []
      = (h1, st1, entries_bytes) /\
    @writeDataAsMessage Z counting_session st1 []
      (le_bytes 0x73f1f8dc ++ le_bytes 2 ++ entries_bytes) false None
      = (MessagePacker._state container_get.1.2, container_wire, cid) /\
    Forall (fun r => containerId (container_get.1.1 r) = Some cid) [1; 2].
Proof.
  apply (@container_framing Z counting_session pair_core one_byte two_queued
           container_get.1.1 container_get.1.2
           (MessagePacker.mkPacked [1; 2] container_wire)).
  - reflexivity.
  - simpl. lia.
Defined.

Lemma fifo_order_witness :
  (exists batches h' p',
     @MessagePacker.drain Z counting_session scenario_core 3 ten_bytes
       three_queued = Some (batches, h', p') /\
     concat batches = [1; 2; 3] /\
     MessagePacker._queue p' = []) /\
  (forall h0 (p0 : MessagePacker.t Z) h1 p1 packed,
     @MessagePacker.get_body Z counting_session scenario_core h0 p0
       = (h1, p1, MessagePacker.Returned (Some packed)) ->
     MessagePacker._queue p0
       = MessagePacker.batch packed ++ MessagePacker._queue p1).
Proof.
  apply (@fifo_order Z counting_session scenario_core ten_bytes 0%Z [1; 2; 3]).
  - simpl. lia.
  - simpl. lia.
  - repeat constructor; unfold MessagePacker.within_limits; simpl; lia.
Defined.

Lemma oversized_head_throws_witness :
  @MessagePacker.get Z counting_session scenario_core big_then_small two_queued
  = (big_then_small,
     MessagePacker.mk 0%Z [2] [] (fulfilled true)
       [MessagePacker.warn_too_long "Ping" 30],
     MessagePacker.Threw (TypeError "state.promise.reject is not a function")).
Proof.
  apply (@oversized_head_throws Z counting_session scenario_core
           big_then_small two_queued 1 [2]).
  - reflexivity.
  - simpl. lia.
Defined.

(** ** Pseudo-cancellable tasks *)
Section CancellableFacts.
Import RealCancellablePromise.
Context {T : Type}.

Lemma reject_fn_idemp (e : JsError) (p : Promise T) :
  reject_fn e (reject_fn e p) = reject_fn e p.
Proof. by destruct p. Qed.

Lemma reject_fn_settled (e : JsError) (p : Promise T) :
  settled p = true -> reject_fn e p = p.
Proof. by destruct p. Qed.

(** [cancel] is idempotent. *)
Lemma cancel_cancel (t : Task T) : cancel (cancel t) = cancel t.
Proof.
  unfold cancel. simpl. destruct (rejectFn t); [done|].
  by rewrite reject_fn_idemp.
Qed.

Lemma underlying_react (t : Task T) : underlying (react t) = underlying t.
Proof.
  unfold react, onFulfilled, onRejected.
  destruct (reacted t); [done|].
  destruct (underlying t) eqn:Hu; [done| |]; simpl;
    by destruct (canceled t).
Qed.

(** No event on the wrapper reaches the wrapped promise: it settles as the
    operation behind it dictates. *)
Lemma underlying_run (evs : list (Event T)) : forall t,
  underlying (run evs t) = run_underlying evs (underlying t).
Proof.
  unfold run, run_underlying.
  induction evs as [|ev evs IH]; intros t; [done|].
  simpl. rewrite IH. f_equal.
  destruct ev; simpl; [done|done|apply underlying_react|done].
Qed.

(** Once canceled with [newPromise] settled, nothing moves [newPromise]. *)
Lemma canceled_step (t : Task T) ev :
  canceled t = true -> settled (newPromise t) = true ->
  canceled (step t ev) = true /\ newPromise (step t ev) = newPromise t.
Proof.
  intros Hc Hs. destruct ev; simpl; [done|done| |].
  - unfold react, onFulfilled, onRejected.
    destruct (reacted t); [done|].
    destruct (underlying t); simpl; by rewrite ?Hc.
  - split; [done|]. destruct (rejectFn t); [done|].
    by apply reject_fn_settled.
Qed.

Lemma canceled_run (evs : list (Event T)) : forall t,
  canceled t = true -> settled (newPromise t) = true ->
  newPromise (run evs t) = newPromise t.
Proof.
  unfold run. induction evs as [|ev evs IH]; intros t Hc Hs; [done|].
  simpl. destruct (canceled_step t ev Hc Hs) as [Hc' Hp].
  rewrite IH; [done|done|by rewrite Hp].
Qed.

Lemma waiting_step (t : Task T) ev : waiting t -> waiting (step t ev).
Proof.
  intros Hw Hpend. destruct ev; simpl in *.
  - by destruct (underlying t).
  - by destruct (underlying t).
  - rewrite underlying_react in Hpend. specialize (Hw Hpend).
    unfold react. rewrite Hpend. by destruct (reacted t).
  - destruct (Hw Hpend) as [(_ & -> & ->)|(_ & Hp)]; right; [done|].
    split; [done|]. rewrite Hp. by destruct (rejectFn t).
Qed.

Lemma waiting_run (evs : list (Event T)) : forall t,
  waiting t -> waiting (run evs t).
Proof.
  unfold run. induction evs as [|ev evs IH]; intros t Hw; [done|].
  simpl. by apply IH, waiting_step.
Qed.

(** C8: when [cancel] is called while the wrapped promise is still pending,
    the task is rejected with the Cancellation and stays so whatever
    happens next: a later fulfilment or rejection of the wrapped promise
    never reaches the waiter.  The wrapped promise itself goes on as if the
    wrapper were not there. *)
Theorem cancel_before_settlement (promise : Promise T)
  (pre post : list (Event T)) :
  underlying (run pre (pseudoCancellable promise)) = pending ->
  newPromise (run (pre ++ call_cancel :: post) (pseudoCancellable promise))
    = rejected (Cancellation canceled_message)
  /\ underlying (run (pre ++ call_cancel :: post) (pseudoCancellable promise))
     = run_underlying (pre ++ post) promise.
Proof.
  intros Hpend. split.
  - unfold run. rewrite foldl_app. simpl.
    fold (run pre (pseudoCancellable promise)).
    set (t := run pre (pseudoCancellable promise)) in *.
    assert (waiting t) as Hw.
    { apply waiting_run. intros _. by left. }
    fold (run post (cancel t)).
    assert (canceled (cancel t) = true
            /\ newPromise (cancel t) = rejected (Cancellation canceled_message))
      as [Hc Hp].
    { destruct (Hw Hpend) as [(_ & Hr & Hn)|(_ & Hn)]; unfold cancel; simpl.
      - by rewrite Hr, Hn.
      - rewrite Hn. by destruct (rejectFn t). }
    rewrite canceled_run; [done|done|by rewrite Hp].
  - rewrite underlying_run. simpl. unfold run_underlying.
    by rewrite !foldl_app.
Qed.

End CancellableFacts.

Lemma cancel_before_settlement_witness :
  let t := RealCancellablePromise.run
             [RealCancellablePromise.run_reaction;
              RealCancellablePromise.call_cancel;
              RealCancellablePromise.settle_ok 7;
              RealCancellablePromise.run_reaction]
             (RealCancellablePromise.pseudoCancellable pending) in
  RealCancellablePromise.newPromise t
    = rejected (Cancellation "Promise canceled.")
  /\ RealCancellablePromise.underlying t = fulfilled 7.
Proof.
  apply (@cancel_before_settlement nat pending
           [RealCancellablePromise.run_reaction]
           [RealCancellablePromise.settle_ok 7;
            RealCancellablePromise.run_reaction]).
  reflexivity.
Defined.

(** ** The connection *)
Section ConnectionFacts.
Import RealCancellablePromise Connection.
Context {Sock : Type} `{!Socket Sock}.

(** A successful [connect] leaves both loop tasks installed. *)
Lemma connect_installs_tasks tag (c c' : t Sock) :
  connect tag c = (c', Normal ()) ->
  _connected c' = true /\
  recvCancel c' = Some (pseudoCancellable pending) /\
  sendCancel c' = Some (pseudoCancellable pending).
Proof.
  unfold connect.
  destruct (socket_connect (socket c)) as [s1 [[]|e1]]; [|done].
  destruct (_initConn tag s1) as [s2 [[]|e2]]; [|done].
  by intros [= <-].
Qed.

(** C9 (what the code does): on a connection that was never connected
    [disconnect] throws: [recvCancel] is still undefined when
    [_cancelLoops] calls [cancel] on it, and the socket is not closed. *)
Theorem disconnect_before_connect_throws (sock : Sock) :
  disconnect (new sock) = (new sock, Throw undefined_cancel).
Proof. reflexivity. Qed.

(** Once the loops have installed their tasks, [disconnect] completes, and
    repeating it completes too and leaves the flag and both tasks as the
    first call left them; it closes the socket again. *)
Lemma disconnect_twice (c : t Sock) rt st :
  recvCancel c = Some rt -> sendCancel c = Some st ->
  let c1 := (disconnect c).1 in
  let c2 := (disconnect c1).1 in
  (disconnect c).2 = Normal () /\ (disconnect c1).2 = Normal () /\
  _connected c1 = false /\
  _connected c2 = _connected c1 /\
  recvCancel c2 = recvCancel c1 /\
  sendCancel c2 = sendCancel c1 /\
  socket c2 = (socket_close (socket c1)).1.
Proof.
  intros Hr Hs. unfold disconnect, _cancelLoops. simpl. rewrite Hr, Hs. simpl.
  destruct (socket_close (socket c)) as [s1 [[]|e1]] eqn:H1; simpl;
    destruct (socket_close s1) as [s2 [[]|e2]] eqn:H2; simpl;
    by rewrite !cancel_cancel.
Qed.

(** On the counting socket: the second [disconnect] changes nothing in the
    connection but reaches the socket once more. *)
Example disconnect_closes_again :
  socket disconnected_once = 1 /\ socket disconnected_twice = 2 /\
  _connected disconnected_twice = false /\
  recvCancel disconnected_twice = recvCancel disconnected_once /\
  sendCancel disconnected_twice = sendCancel disconnected_once.
Proof. repeat split. Qed.

(** Pops that are passed over leave the loop where it was. *)
Lemma recv_loop_passes_over (skipped rest : list (option Buffer * bool)) :
  Forall passed_over skipped ->
  recv_loop true (skipped ++ rest) = recv_loop true rest.
Proof.
  induction 1 as [|[marker flag] skipped [Hmarker Hflag] _ IH]; [done|].
  simpl in *. subst flag. by destruct Hmarker as [->| ->].
Qed.

(** What each way of ending says about the flag and the pops. *)
Lemma recv_loop_outcome (pops : list (option Buffer * bool)) :
  forall connected,
  match recv_loop connected pops with
  | recv_returned payload =>
    connected = true /\ payload <> [] /\
    exists skipped flag rest,
      pops = skipped ++ (Some payload, flag) :: rest /\
      Forall passed_over skipped
  | recv_threw e =>
    e = Error "Not connected" /\
    (connected = false \/
     exists skipped marker rest,
       pops = skipped ++ (marker, false) :: rest /\
       Forall passed_over skipped /\ (marker = None \/ marker = Some []))
  | recv_awaiting => connected = true /\ Forall passed_over pops
  end.
Proof.
  induction pops as [|[result flag] rest IH]; intros [|]; simpl;
    [done|by split; [|left]| |by split; [|left]].
  assert (result = None \/ result = Some [] ->
          match recv_loop flag rest with
          | recv_returned payload =>
            true = true /\ payload <> [] /\
            exists skipped flag' rest',
              (result, flag) :: rest
                = skipped ++ (Some payload, flag') :: rest' /\
              Forall passed_over skipped
          | recv_threw e =>
            e = Error "Not connected" /\
            (true = false \/
             exists skipped marker rest',
               (result, flag) :: rest = skipped ++ (marker, false) :: rest' /\
               Forall passed_over skipped /\
               (marker = None \/ marker = Some []))
          | recv_awaiting =>
            true = true /\ Forall passed_over ((result, flag) :: rest)
          end) as Hskip.
  { intros Hmarker. specialize (IH flag).
    destruct (recv_loop flag rest) as [payload|e|].
    - destruct IH as (-> & Hne & skipped & flag' & rest' & -> & Hskipped).
      split_and!; [done..|].
      exists ((result, true) :: skipped), flag', rest'. split; [done|].
      by constructor.
    - destruct IH as (-> & [->|(skipped & marker & rest' & -> & Hs & Hm)]).
      + split; [done|]. right. by exists [], result, rest.
      + destruct flag.
        * split; [done|]. right.
          exists ((result, true) :: skipped), marker, rest'.
          split_and!; [done| |done]. by constructor.
        * split; [done|]. right.
          by exists [], result, (skipped ++ (marker, false) :: rest').
    - destruct IH as [-> Hrest]. split; [done|]. by constructor. }
  destruct result as [[|b bytes]|]; simpl.
  - apply Hskip. by right.
  - split_and!; [done..|]. by exists [], flag, rest.
  - apply Hskip. by left.
Qed.

(** C10: [recv] returns a payload exactly when it is the first non-empty
    buffer popped while the connection stays connected - so what it returns
    is never empty, and the [undefined] and empty buffers popped before it
    are passed over, never returned.  It throws exactly when it finds the
    flag down, at the call or after a pop it passed over, and then what it
    throws is "Not connected".  Otherwise, with the flag up and only such
    markers popped, it is still waiting for a pop. *)
Theorem recv_returns_payload (c : t Sock)
  (pops : list (option Buffer * bool)) :
  (forall payload,
     recv c pops = recv_returned payload <->
     _connected c = true /\ payload <> [] /\
     exists skipped flag rest,
       pops = skipped ++ (Some payload, flag) :: rest /\
       Forall passed_over skipped)
  /\ (forall e,
        recv c pops = recv_threw e <->
        e = Error "Not connected" /\
        (_connected c = false \/
         exists skipped marker rest,
           pops = skipped ++ (marker, false) :: rest /\
           Forall passed_over skipped /\
           (marker = None \/ marker = Some [])))
  /\ (recv c pops = recv_awaiting <->
      _connected c = true /\ Forall passed_over pops).
Proof.
  unfold recv. pose proof (recv_loop_outcome pops (_connected c)) as Hout.
  split_and!.
  - intros payload. split.
    + intros Hret. by rewrite Hret in Hout.
    + intros (-> & Hne & skipped & flag & rest & -> & Hskipped).
      rewrite recv_loop_passes_over by done. simpl.
      by destruct payload.
  - intros e. split.
    + intros Hthrew. by rewrite Hthrew in Hout.
    + intros (-> & [->|(skipped & marker & rest & -> & Hskipped & Hmarker)]).
      * by destruct pops.
      * destruct (_connected c); [|by destruct (skipped ++ _)].
        rewrite recv_loop_passes_over by done. simpl.
        destruct Hmarker as [->| ->]; simpl; by destruct rest.
  - split.
    + intros Hwait. by rewrite Hwait in Hout.
    + intros [-> Hall].
      rewrite <- (app_nil_r pops), recv_loop_passes_over by done. done.
Qed.

End ConnectionFacts.

(** * Further properties of the modelled code *)

(** ** The packer: what [get] changes and what it leaves alone *)
Section PackerFrame.
Import MessagePacker.
Context {St : Type} `{!MTProtoState St} `{!TLCore}.

Lemma set_msgId_keeps id r h r' :
  promise (heap_update (set_msgId id) r h r') = promise (h r') /\
  request (heap_update (set_msgId id) r h r') = request (h r') /\
  after (heap_update (set_msgId id) r h r') = after (h r') /\
  containerId (heap_update (set_msgId id) r h r') = containerId (h r').
Proof.
  destruct (decide (r' = r)) as [->|Hne].
  - by rewrite heap_update_same.
  - by rewrite heap_update_other.
Qed.

Lemma set_containerId_keeps id r h r' :
  promise (heap_update (set_containerId id) r h r') = promise (h r') /\
  request (heap_update (set_containerId id) r h r') = request (h r') /\
  after (heap_update (set_containerId id) r h r') = after (h r') /\
  msgId (heap_update (set_containerId id) r h r') = msgId (h r').
Proof.
  destruct (decide (r' = r)) as [->|Hne].
  - by rewrite heap_update_same.
  - by rewrite heap_update_other.
Qed.

Lemma set_container_keeps cid batch : forall h r,
  promise (set_container cid batch h r) = promise (h r) /\
  request (set_container cid batch h r) = request (h r) /\
  after (set_container cid batch h r) = after (h r) /\
  msgId (set_container cid batch h r) = msgId (h r).
Proof.
  unfold set_container.
  induction batch as [|b batch IH]; intros h r; [done|]. simpl.
  destruct (IH (heap_update (set_containerId cid) b h) r) as (-> & -> & -> & ->).
  apply set_containerId_keeps.
Qed.

Lemma set_container_other cid batch : forall h r,
  r ∉ batch -> set_container cid batch h r = h r.
Proof.
  unfold set_container.
  induction batch as [|b batch IH]; intros h r Hr; [done|]. simpl.
  apply not_elem_of_cons in Hr as [Hne Hr].
  rewrite IH by done. by apply heap_update_other.
Qed.

(** However the loop ends, it has left every promise, request, payload and
    [after] link as it found them. *)
Lemma get_loop_keeps queue : forall f r,
  promise (f_heap (exit_frame (get_loop queue f)) r) = promise (f_heap f r) /\
  request (f_heap (exit_frame (get_loop queue f)) r) = request (f_heap f r) /\
  after (f_heap (exit_frame (get_loop queue f)) r) = after (f_heap f r) /\
  data (f_heap (exit_frame (get_loop queue f)) r) = data (f_heap f r).
Proof.
  induction queue as [|q rest IH]; intros f r; [done|]. simpl.
  destruct (length (f_batch f) <=? MAXIMUM_LENGTH); [|done].
  destruct (_ <=? MAXIMUM_SIZE).
  - destruct (writeDataAsMessage _ _ _ _ _) as [[st' buffer'] id].
    destruct (IH (mkFrame (heap_update (set_msgId id) q (f_heap f)) st'
                    (f_log f ++ [debug_assigned id (className (request (f_heap f q)))])
                    buffer' (f_batch f ++ [q])
                    (f_size f + (length (data (f_heap f q)) + SIZE_OVERHEAD))) r)
      as (-> & -> & -> & ->). simpl.
    destruct (set_msgId_keeps id q (f_heap f) r) as (-> & -> & -> & _).
    by rewrite data_set_msgId.
  - by destruct (negb _).
Qed.

(** X1: whatever [get] does - suspend, return a batch, return [null] or
    throw - it settles no promise and changes no request, payload or [after]
    link of any RequestState: it only ever writes [msgId] and
    [containerId]. *)
Theorem get_settles_nothing h (p : t St) (r : ref) :
  promise ((get h p).1.1 r) = promise (h r) /\
  request ((get h p).1.1 r) = request (h r) /\
  after ((get h p).1.1 r) = after (h r) /\
  data ((get h p).1.1 r) = data (h r).
Proof.
  unfold get. destruct (_queue p) as [|q rest] eqn:Hq; [done|].
  unfold get_body. rewrite Hq.
  pose proof (get_loop_keeps (q :: rest)
                (mkFrame h (_state p) (_log p) [] [] 0) r) as Hkeep.
  destruct (get_loop _ _) as [queue f|queue f e]; simpl in Hkeep |- *; [|done].
  destruct (length (f_batch f) =? 0); [done|].
  destruct (1 <? length (f_batch f)); [|done].
  destruct (container_header _); [|done].
  destruct (writeDataAsMessage _ _ _ _ _) as [[st' buffer'] cid]. simpl.
  destruct (set_container_keeps cid (f_batch f) (f_heap f) r)
    as (-> & -> & -> & _).
  by rewrite set_container_data.
Qed.

End PackerFrame.

(** ** The packer: the shape of what [get] returns *)
Section PackerShape.
Import MessagePacker.
Context {St : Type} `{!MTProtoState St} `{!TLCore}.

Lemma write_entries_keeps_id entries : forall h st buffer r,
  is_Some (msgId (h r)) ->
  is_Some (msgId ((write_entries entries h st buffer).1.1 r)).
Proof.
  induction entries as [|e entries IH]; intros h st buffer r Hid; [done|].
  simpl. destruct (writeDataAsMessage _ _ _ _ _) as [[st' buffer'] id].
  apply IH. destruct (decide (r = e)) as [->|Hne].
  - rewrite heap_update_same. by eexists.
  - by rewrite heap_update_other.
Qed.

Lemma write_entries_assigns entries : forall h st buffer r,
  r ∈ entries ->
  is_Some (msgId ((write_entries entries h st buffer).1.1 r)).
Proof.
  induction entries as [|e entries IH]; intros h st buffer r Hr.
  - by apply elem_of_nil in Hr.
  - simpl. destruct (writeDataAsMessage _ _ _ _ _) as [[st' buffer'] id].
    apply elem_of_cons in Hr as [->|Hr]; [|by apply IH].
    apply write_entries_keeps_id. rewrite heap_update_same. by eexists.
Qed.

(** X3: every entry of a returned batch carries a message id afterwards. *)
Theorem batch_entries_have_ids h (p : t St) h' p' packed :
  get_body h p = (h', p', Returned (Some packed)) ->
  Forall (fun r => is_Some (msgId (h' r))) (batch packed).
Proof.
  intros (f & Hloop & -> & Hshape)%get_body_packed.
  apply get_loop_done in Hloop as (taken & _ & Hb & Hw). simpl in Hb, Hw.
  rewrite Hb. apply Forall_forall. intros r Hr.
  pose proof (write_entries_assigns taken h (_state p) [] r Hr) as Hid.
  rewrite Hw in Hid. simpl in Hid.
  destruct Hshape as [(_ & -> & _)|(_ & b & cid & _ & _ & ->)]; [done|].
  by destruct (set_container_keeps cid (f_batch f) (f_heap f) r)
    as (_ & _ & _ & ->).
Qed.

(** X4: a returned batch has at least one entry and at most
    [MAXIMUM_LENGTH + 1]. *)
Theorem batch_length_range h (p : t St) h' p' packed :
  get_body h p = (h', p', Returned (Some packed)) ->
  1 <= length (batch packed) <= S MAXIMUM_LENGTH.
Proof.
  intros (f & Hloop & -> & Hshape)%get_body_packed.
  apply get_loop_length in Hloop; [|simpl; lia].
  destruct Hshape as [(? & _)|(? & _)]; lia.
Qed.

(** X5: [get] returns [null] only when it starts its loop on an empty queue,
    and then it has changed nothing; with anything queued it returns a batch
    or throws. *)
Theorem null_only_on_empty_queue h (p : t St) h' p' :
  get_body h p = (h', p', Returned None) <->
  _queue p = [] /\ h' = h /\ p' = p.
Proof.
  split.
  - unfold get_body. destruct (_queue p) as [|q rest] eqn:Hq.
    + simpl. intros [= <- <-]. destruct p; simpl in *. by subst.
    + simpl.
      destruct (Nat.leb_spec (length (data (h q)) + SIZE_OVERHEAD) MAXIMUM_SIZE);
        [|done].
      destruct (writeDataAsMessage _ _ _ _ _) as [[st' buffer'] id].
      destruct (get_loop _ _) as [queue f|queue f e] eqn:Hloop; [|done].
      apply get_loop_done in Hloop as (taken & _ & Hb & _). simpl in Hb.
      rewrite Hb. simpl.
      destruct (1 <? _); [|done].
      destruct (container_header _); [|done].
      by destruct (writeDataAsMessage _ _ _ _ _) as [[??]?].
  - intros (Hq & -> & ->). unfold get_body. rewrite Hq. simpl.
    destruct p; simpl in *. by subst.
Qed.



(** X7: a batch of one entry is returned as framed, with no container: the
    bytes are what the session wrote for that entry into an empty writer, the
    entry has the id the session returned, and no [containerId] is written
    anywhere. *)
Theorem single_entry_is_not_wrapped h (p : t St) h' p' packed :
  get_body h p = (h', p', Returned (Some packed)) ->
  length (batch packed) = 1 ->
  exists b id,
    batch packed = [b] /\
    writeDataAsMessage (_state p) [] (data (h b))
      (String.eqb (classType (request (h b))) "request")
      (afterId_of h (h b))
      = (_state p', wire packed, id) /\
    msgId (h' b) = Some id /\
    forall r, containerId (h' r) = containerId (h r).
Proof.
  intros (f & Hloop & Hbatch & Hshape)%get_body_packed Hone.
  rewrite Hbatch in Hone.
  destruct Hshape as [(_ & -> & -> & ->)|(Hmany & _)]; [|lia].
  apply get_loop_done in Hloop as (taken & _ & Hb & Hw). simpl in Hb, Hw.
  rewrite Hbatch, Hb in *.
  destruct taken as [|b [|??]]; [done| |done].
  simpl in Hw.
  destruct (writeDataAsMessage _ _ _ _ _) as [[st' buffer'] id] eqn:Hwd.
  injection Hw as <- <- <-. exists b, id. split_and!; [done|done| |].
  - by rewrite heap_update_same.
  - intros r. by destruct (set_msgId_keeps id b h r) as (_ & _ & _ & ->).
Qed.

End PackerShape.

(** ** The packer: requests that depend on one another *)
Section PackerSequences.
Import MessagePacker.
Context {St : Type} `{!MTProtoState St} `{!TLCore}.

(** X10: a request that depends on the one queued right before it is framed
    with that request's new id.  With [a] and [b] queued, [b.after] being
    [a], and room for both, [get] frames [a], then frames [b] passing the id
    the session has just returned for [a] as [afterId], and wraps the two. *)
Theorem dependent_entry_gets_fresh_id h (p : t St) (a b : ref) :
  _queue p = [a; b] ->
  after (h b) = Some a ->
  batch_size h [a; b] <= MAXIMUM_SIZE ->
  1 <= MAXIMUM_LENGTH ->
  (0 <= CONSTRUCTOR_ID < 2 ^ 32)%Z ->
  exists st1 buffer1 id_a st2 buffer2 id_b st3 out cid h',
    writeDataAsMessage (_state p) [] (data (h a))
      (String.eqb (classType (request (h a))) "request") (afterId_of h (h a))
      = (st1, buffer1, id_a) /\
    writeDataAsMessage st1 buffer1 (data (h b))
      (String.eqb (classType (request (h b))) "request") (Some id_a)
      = (st2, buffer2, id_b) /\
    writeDataAsMessage st2 []
      (le_bytes CONSTRUCTOR_ID ++ le_bytes 2 ++ buffer2) false None
      = (st3, out, cid) /\
    (get h p).2 = Returned (Some (mkPacked [a; b] out)) /\
    (get h p).1.1 = h' /\
    msgId (h' b) = Some id_b /\
    containerId (h' a) = Some cid /\ containerId (h' b) = Some cid.
Proof.
  intros Hq Hafter Hfit Hlen Hid.
  unfold batch_size in Hfit. simpl in Hfit.
  destruct (writeDataAsMessage (_state p) [] (data (h a))
              (String.eqb (classType (request (h a))) "request")
              (afterId_of h (h a))) as [[st1 buffer1] id_a] eqn:Ha.
  destruct (writeDataAsMessage st1 buffer1 (data (h b))
              (String.eqb (classType (request (h b))) "request")
              (Some id_a)) as [[st2 buffer2] id_b] eqn:Hb.
  destruct (writeDataAsMessage st2 []
              (le_bytes CONSTRUCTOR_ID ++ le_bytes 2 ++ buffer2) false None)
    as [[st3 out] cid] eqn:Hc.
  set (h2 := heap_update (set_msgId id_b) b
               (heap_update (set_msgId id_a) a h)).
  assert (get h p
          = (set_container cid [a; b] h2,
             mk st3 [] (_pendingStates p) (_ready p)
               (_log p ++ [debug_assigned id_a (className (request (h a)))]
                  ++ [debug_assigned id_b (className (request (h b)))]),
             Returned (Some (mkPacked [a; b] out)))) as Hget.
  { unfold get, get_body. rewrite Hq. simpl.
    destruct (Nat.leb_spec (length (data (h a)) + SIZE_OVERHEAD) MAXIMUM_SIZE);
      [|lia].
    rewrite Ha. simpl.
    destruct MAXIMUM_LENGTH as [|m]; [lia|].
    rewrite data_set_msgId.
    destruct (Nat.leb_spec
                (length (data (h a)) + SIZE_OVERHEAD
                 + (length (data (h b)) + SIZE_OVERHEAD)) MAXIMUM_SIZE); [|lia].
    assert (afterId_of (heap_update (set_msgId id_a) a h)
              (heap_update (set_msgId id_a) a h b) = Some id_a) as ->.
    { unfold afterId_of.
      destruct (set_msgId_keeps id_a a h b) as (_ & _ & -> & _).
      rewrite Hafter. by rewrite heap_update_same. }
    destruct (set_msgId_keeps id_a a h b) as (_ & -> & _ & _).
    rewrite Hb. simpl. rewrite container_header_ok by (done || lia). simpl.
    match goal with
    | |- context [writeDataAsMessage st2 [] ?x false None] =>
      change x with (le_bytes CONSTRUCTOR_ID ++ le_bytes 2 ++ buffer2)
    end.
    rewrite Hc. by rewrite <- app_assoc. }
  exists st1, buffer1, id_a, st2, buffer2, id_b, st3, out, cid,
    (set_container cid [a; b] h2).
  rewrite Hget. split_and!; [done..| | |].
  - destruct (set_container_keeps cid [a; b] h2 b) as (_ & _ & _ & ->).
    unfold h2. by rewrite heap_update_same.
  - apply set_container_sets. left. apply list_elem_of_here.
  - apply set_container_sets. left.
    apply list_elem_of_further, list_elem_of_here.
Qed.

End PackerSequences.

(** ** real-cancellable-promise: further behaviour *)
Section CancellableMore.
Import RealCancellablePromise.
Context {T : Type}.

Lemma run_underlying_settled (evs : list (Event T)) : forall p : Promise T,
  settled p = true -> run_underlying evs p = p.
Proof.
  unfold run_underlying.
  induction evs as [|ev evs IH]; intros p Hs; [done|]. simpl.
  destruct p; [done|..]; destruct ev; simpl; by apply IH.
Qed.

(** What holds of a task nobody has cancelled: the waiter's promise is
    pending until the reaction has run and equal to the wrapped promise from
    then on. *)
Lemma uncancelled_step (t : Task T) (ev : Event T) :
  ev <> call_cancel ->
  canceled t = false ->
  newPromise t = (if reacted t then underlying t else pending) ->
  (reacted t = true -> settled (underlying t) = true) ->
  canceled (step t ev) = false /\
  newPromise (step t ev)
    = (if reacted (step t ev) then underlying (step t ev) else pending) /\
  (reacted (step t ev) = true -> settled (underlying (step t ev)) = true) /\
  (reacted t = true -> reacted (step t ev) = true).
Proof.
  intros Hev Hc Hn Hs. destruct t as [u r c rf np]. simpl in *. subst c np.
  unfold step, react, onFulfilled, onRejected, with_underlying.
  destruct ev; [| | |done]; destruct r, u; simpl in *;
    try specialize (Hs eq_refl); done.
Qed.

Lemma uncancelled_run (evs : list (Event T)) : forall t,
  call_cancel ∉ evs ->
  canceled t = false ->
  newPromise t = (if reacted t then underlying t else pending) ->
  (reacted t = true -> settled (underlying t) = true) ->
  canceled (run evs t) = false /\
  newPromise (run evs t)
    = (if reacted (run evs t) then underlying (run evs t) else pending) /\
  (reacted (run evs t) = true -> settled (underlying (run evs t)) = true) /\
  (reacted t = true -> reacted (run evs t) = true).
Proof.
  unfold run. induction evs as [|ev evs IH]; intros t Hno Hc Hn Hs; [done|].
  apply not_elem_of_cons in Hno as [Hev Hno]. simpl.
  destruct (uncancelled_step t ev) as (Hc' & Hn' & Hs' & Hmono); [done..|].
  destruct (IH (step t ev)) as (? & ? & ? & Hmono'); [done..|].
  split_and!; [done..|]. intros Hr. by apply Hmono', Hmono.
Qed.

(** X11: a task that is never cancelled is transparent.  Once the wrapped
    promise has settled and its reaction has run, the waiter's promise has
    the wrapped promise's outcome, whatever else happens to the task. *)
Theorem uncancelled_task_delivers (promise : Promise T)
  (pre post : list (Event T)) :
  call_cancel ∉ pre ++ post ->
  settled (underlying (run pre (pseudoCancellable promise))) = true ->
  newPromise (run (pre ++ run_reaction :: post) (pseudoCancellable promise))
  = underlying (run pre (pseudoCancellable promise)).
Proof.
  intros Hno Hsettled.
  apply not_elem_of_app in Hno as [Hpre Hpost].
  destruct (uncancelled_run pre (pseudoCancellable promise))
    as (Hc & Hn & Hs & _); [done..|].
  set (t := run pre (pseudoCancellable promise)) in *.
  unfold run. rewrite foldl_app. simpl. fold (run pre (pseudoCancellable promise)).
  fold t. fold (run post (react t)).
  destruct (uncancelled_step t run_reaction) as (Hc1 & Hn1 & Hs1 & _);
    [done..|]. simpl in *.
  assert (reacted (react t) = true) as Hreacted.
  { unfold react, onFulfilled, onRejected.
    destruct (reacted t) eqn:Hr; [done|].
    destruct (underlying t); [done|..]; simpl; by rewrite Hc. }
  destruct (uncancelled_run post (react t)) as (_ & Hn2 & _ & Hmono); [done..|].
  rewrite Hn2, (Hmono Hreacted), underlying_run, underlying_react.
  by apply run_underlying_settled.
Qed.

(** X12: the waiter's promise settles once.  After it has settled, no event
    changes it: not a late settlement of the wrapped promise, not its
    reaction, not a [cancel], however often it is called. *)
Theorem settled_task_is_final (t : Task T) (evs : list (Event T)) :
  settled (newPromise t) = true ->
  newPromise (run evs t) = newPromise t.
Proof.
  unfold run. revert t.
  induction evs as [|ev evs IH]; intros t Hs; [done|]. simpl.
  assert (newPromise (step t ev) = newPromise t) as Hstep.
  { destruct ev; simpl; [done|done| |].
    - unfold react, onFulfilled, onRejected.
      destruct (reacted t); [done|].
      destruct (underlying t); [done|..]; simpl;
        destruct (canceled t); simpl; [done| |done|];
        by destruct (newPromise t).
    - destruct (rejectFn t); [done|]. by apply reject_fn_settled. }
  rewrite IH; [done|by rewrite Hstep].
Qed.

End CancellableMore.

Section DelayFacts.
Import RealCancellablePromise.

Lemma delay_run_cancelled (evs : list DelayEvent) :
  delay_run evs
    (mkDelay false reject_newPromise
       (rejected (Cancellation canceled_message)))
  = mkDelay false reject_newPromise
      (rejected (Cancellation canceled_message)).
Proof.
  unfold delay_run. induction evs as [|[|] evs IH]; [done|..]; by simpl.
Qed.

Lemma delay_run_expired (evs : list DelayEvent) :
  delay_run evs (mkDelay false noop (fulfilled ()))
  = mkDelay false noop (fulfilled ()).
Proof.
  unfold delay_run. induction evs as [|[|] evs IH]; [done|..]; by simpl.
Qed.

(** X13: a [delay] is decided by what happens first.  Cancelled before the
    timeout, it is rejected with the Cancellation and its timeout is
    cleared, so it is never fulfilled later; once the timeout has run it is
    fulfilled and [cancel] no longer does anything. *)
Theorem delay_first_event_decides (evs : list DelayEvent) :
  delay_run (cancel_delay :: evs) delay
    = mkDelay false reject_newPromise
        (rejected (Cancellation canceled_message)) /\
  delay_run (timer_expires :: evs) delay
    = mkDelay false noop (fulfilled ()).
Proof.
  split.
  - apply delay_run_cancelled.
  - apply delay_run_expired.
Qed.

Lemma cancel_values_app xs ys :
  (cancel_values xs).2 = Normal () ->
  cancel_values (xs ++ ys)
  = ((cancel_values xs).1 ++ (cancel_values ys).1, (cancel_values ys).2).
Proof.
  induction xs as [|x xs IH]; intros Hok; simpl in *.
  - by destruct (cancel_values ys).
  - destruct (isPromiseWithCancel x) as [[|]|e]; [| |done].
    + destruct (cancel_values xs) as [ids c] eqn:Hxs. simpl in *.
      rewrite IH by done. by destruct x.
    + by apply IH.
Qed.

Lemma cancel_values_no_null xs :
  js_null ∉ xs -> cancel_values xs = (with_cancel xs, Normal ()).
Proof.
  induction xs as [|x xs IH]; intros Hno; [done|].
  apply not_elem_of_cons in Hno as [Hx Hno]. simpl.
  rewrite (IH Hno). unfold with_cancel. simpl.
  destruct x as [| | | |[|] [|] id]; done.
Qed.

(** X14: cancelling the result of [all], [allSettled] or [race] calls
    [cancel] on exactly the values that are objects with both a [then] and a
    [cancel] function, once each and in order, and leaves the others alone;
    unless a value is [null]: there the loop throws a TypeError, after
    cancelling only what came before the [null]. *)
Theorem cancel_values_reaches_cancellables (xs ys : list JsValue) :
  js_null ∉ xs ->
  cancel_values xs = (with_cancel xs, Normal ()) /\
  cancel_values (xs ++ js_null :: ys)
  = (with_cancel xs,
     Throw (TypeError "Cannot read properties of null (reading 'then')")).
Proof.
  intros Hno. split; [by apply cancel_values_no_null|].
  rewrite cancel_values_app by (by rewrite cancel_values_no_null).
  rewrite cancel_values_no_null by done. simpl. by rewrite app_nil_r.
Qed.

End DelayFacts.

(** ** The connection: further behaviour *)
Section ConnectionMore.
Import RealCancellablePromise Connection.
Context {Sock : Type} `{!Socket Sock}.

(** X15: [recv] hands out the first payload.  While the connection stays
    connected, pops that yield [undefined] or an empty buffer are passed
    over, and the first non-empty buffer popped is what [recv] returns;
    nothing popped after it is consumed. *)
Theorem recv_returns_first_payload (c : t Sock)
  (skipped : list (option Buffer * bool)) (payload : Buffer) (flag : bool)
  (rest : list (option Buffer * bool)) :
  _connected c = true ->
  Forall (fun pop => (pop.1 = None \/ pop.1 = Some []) /\ pop.2 = true)
    skipped ->
  payload <> [] ->
  recv c (skipped ++ (Some payload, flag) :: rest) = recv_returned payload.
Proof.
  intros Hc Hskip Hne. unfold recv. rewrite Hc. clear Hc.
  induction Hskip as [|[marker conn] skipped [Hmarker Hconn] _ IH]; simpl.
  - by destruct payload.
  - simpl in *. subst conn. by destruct Hmarker as [->| ->].
Qed.

Lemma disconnect_lowers_flag (c : t Sock) : _connected (disconnect c).1 = false.
Proof.
  unfold disconnect, _cancelLoops. simpl.
  destruct (recvCancel c); [|done]. simpl.
  destruct (sendCancel c); [|done]. simpl.
  by destruct (socket_close (socket c)) as [s [[]|e]].
Qed.

(** X16: after [disconnect], whether it completed or threw, the connection
    takes no more traffic: [send] throws "Not connected" without touching
    the outbound queue, and [recv] throws "Not connected" whatever is in the
    inbound queue. *)
Theorem closed_after_disconnect {Q : Type} `{!AsyncQueue Q} (c : t Sock)
  (_sendArray : Q) (data : Buffer) (pops : list (option Buffer * bool)) :
  send (disconnect c).1 _sendArray data
    = (_sendArray, Throw (Error "Not connected")) /\
  recv (disconnect c).1 pops = recv_threw (Error "Not connected").
Proof.
  unfold send, recv. rewrite disconnect_lowers_flag. simpl.
  split; [done|]. by destruct pops.
Qed.

End ConnectionMore.

(** ** updates.js *)
Section UpdatesFacts.
Import Updates.

Lemma differs_Some (x y : ref) : differs x (Some y) = true <-> x <> y.
Proof.
  simpl. destruct (Nat.eqb_spec x y); simpl; split; intros; done.
Qed.

(** X18: what [removeEventHandler(client, callback, event)] leaves.  A
    registered pair stays exactly when its event is not [event] and its
    callback is not [callback]: so a pair that shares only the callback, or
    only the event, is removed too.  What stays keeps its order. *)
Theorem removeEventHandler_keeps (callback event : ref)
  (builders : EventBuilders) :
  removeEventHandler (Some callback) (Some event) builders `sublist_of` builders
  /\ forall item,
       item ∈ removeEventHandler (Some callback) (Some event) builders <->
       item ∈ builders /\ item.1 <> event /\ item.2 <> callback.
Proof.
  unfold removeEventHandler. split.
  - induction builders as [|item builders IH]; simpl; [done|].
    destruct (_ && _); [by apply sublist_skip|by apply sublist_cons].
  - intros item. rewrite list_elem_of_In, filter_In, <- list_elem_of_In.
    rewrite andb_true_iff, !differs_Some. done.
Qed.

Lemma filter_twice {A} (keep : A -> bool) (l : list A) :
  List.filter keep (List.filter keep l) = List.filter keep l.
Proof.
  induction l as [|x l IH]; simpl; [done|].
  destruct (keep x) eqn:Hx; simpl; by rewrite ?Hx, IH.
Qed.

(** X19: removing undoes adding, and more.  Removing a callback right after
    adding it, under any event, gives what removing it from the list before
    the addition gives; and removing a second time changes nothing. *)
Theorem removeEventHandler_after_add (raw callback : ref)
  (event event' : option ref) (builders : EventBuilders) :
  removeEventHandler (Some callback) event'
    (addEventHandler raw callback event builders)
  = removeEventHandler (Some callback) event' builders
  /\ removeEventHandler (Some callback) event'
       (removeEventHandler (Some callback) event' builders)
     = removeEventHandler (Some callback) event' builders.
Proof.
  unfold removeEventHandler, addEventHandler. split.
  - rewrite List.filter_app. simpl. rewrite Nat.eqb_refl. simpl.
    rewrite andb_false_r. by rewrite app_nil_r.
  - apply filter_twice.
Qed.

Lemma attempts_from_succeeds {V} (cb : nat -> Completion V) (times : nat)
  (v : V) (d : nat) : forall i fuel,
  (forall j, i <= j < i + d -> exists e, cb j = Throw e) ->
  cb (i + d) = Normal v ->
  i + d < times -> d < fuel ->
  attempts_from cb times i fuel = mkAttempts (Normal (Some v)) (S d) d.
Proof.
  induction d as [|d IH]; intros i fuel Hfail Hok Hlt Hfuel;
    (destruct fuel as [|fuel]; [lia|]); simpl.
  - destruct (Nat.ltb_spec i times); [|lia].
    rewrite Nat.add_0_r in Hok. by rewrite Hok.
  - destruct (Nat.ltb_spec i times); [|lia].
    destruct (Hfail i) as [e ->]; [lia|].
    destruct (Nat.eqb_spec i (times - 1)); [lia|].
    rewrite (IH (S i) fuel); [done| | |lia|lia].
    + intros j Hj. apply Hfail. lia.
    + by replace (S i + d) with (i + S d) by lia.
Qed.

Lemma attempts_from_fails {V} (cb : nat -> Completion V) (times : nat)
  (e : JsError) (d : nat) : forall i fuel,
  (forall j, i <= j < times -> exists e', cb j = Throw e') ->
  cb (times - 1) = Throw e ->
  i + S d = times -> d < fuel ->
  attempts_from cb times i fuel = mkAttempts (Throw e) (S d) d.
Proof.
  induction d as [|d IH]; intros i fuel Hfail Hlast Hi Hfuel;
    (destruct fuel as [|fuel]; [lia|]); simpl.
  - destruct (Nat.ltb_spec i times); [|lia].
    replace (times - 1) with i in * by lia. rewrite Hlast.
    by rewrite Nat.eqb_refl.
  - destruct (Nat.ltb_spec i times); [|lia].
    destruct (Hfail i) as [e' ->]; [lia|].
    destruct (Nat.eqb_spec i (times - 1)); [lia|].
    rewrite (IH (S i) fuel); [done| |done|lia|lia].
    intros j Hj. apply Hfail. lia.
Qed.

(** X20: [attempts] returns the first success.  When the call of [cb] at
    index [k], below [times], is the first that does not throw, [attempts]
    returns its value after [k + 1] calls and [k] sleeps, and calls [cb] no
    more. *)
Theorem attempts_returns_first_success {V} (cb : nat -> Completion V)
  (times k : nat) (v : V) :
  k < times ->
  (forall j, j < k -> exists e, cb j = Throw e) ->
  cb k = Normal v ->
  attempts cb times = mkAttempts (Normal (Some v)) (S k) k.
Proof.
  intros Hk Hfail Hok. unfold attempts.
  apply attempts_from_succeeds; [|done|done|lia].
  intros j Hj. apply Hfail. lia.
Qed.

(** X21: [attempts] gives up after [times] calls.  When every call of [cb]
    throws, [attempts] throws what the last call threw, after exactly
    [times] calls and [times - 1] sleeps: it does not sleep after the last
    failure. *)
Theorem attempts_throws_last_error {V} (cb : nat -> Completion V)
  (times : nat) (e : JsError) :
  0 < times ->
  (forall j, j < times -> exists e', cb j = Throw e') ->
  cb (times - 1) = Throw e ->
  attempts cb times = mkAttempts (Throw e) times (times - 1).
Proof.
  intros Hpos Hfail Hlast. unfold attempts.
  destruct times as [|d]; [lia|].
  replace (S d - 1) with d in * by lia.
  apply attempts_from_fails; [|by replace (S d - 1) with d by lia|lia|lia].
  intros j Hj. apply Hfail. lia.
Qed.

End UpdatesFacts.

Section PackerOversized.
Import MessagePacker.
Context {St : Type} `{!MTProtoState St} `{!TLCore}.

Lemma entry_within_batch_size h (xs : list ref) (r : ref) :
  r ∈ xs -> length (data (h r)) + SIZE_OVERHEAD <= batch_size h xs.
Proof.
  induction xs as [|x xs IH]; intros Hr.
  - by apply elem_of_nil in Hr.
  - unfold batch_size in *. simpl.
    apply elem_of_cons in Hr as [->|Hr]; [lia|].
    specialize (IH Hr). lia.
Qed.

(** X22: a request that is too large for a packet on its own is never part
    of a returned batch: every entry of a batch fits a packet alone. *)
Theorem batch_entries_fit_alone h (p : t St) h' p' packed :
  get_body h p = (h', p', Returned (Some packed)) ->
  Forall (within_limits h) (batch packed).
Proof.
  intros (f & Hloop & -> & _)%get_body_packed.
  pose proof (get_loop_keeps (_queue p)
                (mkFrame h (_state p) (_log p) [] [] 0)) as Hkeep.
  rewrite Hloop in Hkeep. simpl in Hkeep.
  apply get_loop_size in Hloop; [|done|simpl; lia].
  rewrite (batch_size_ext h) in Hloop by (intros r0; apply Hkeep).
  apply Forall_forall. intros r Hr. unfold within_limits.
  pose proof (entry_within_batch_size h (f_batch f) r Hr). lia.
Qed.

End PackerOversized.

(** ** The further properties at concrete inputs *)

Lemma batch_entries_have_ids_witness :
  Forall (fun r => is_Some (msgId (container_get.1.1 r))) [1; 2].
Proof.
  apply (@batch_entries_have_ids Z counting_session pair_core one_byte
           two_queued container_get.1.1 container_get.1.2
           (MessagePacker.mkPacked [1; 2] container_wire)).
  reflexivity.
Defined.

Lemma batch_length_range_witness :
  1 <= length [1; 2] <= S (@MAXIMUM_LENGTH pair_core).
Proof.
  apply (@batch_length_range Z counting_session pair_core one_byte
           two_queued container_get.1.1 container_get.1.2
           (MessagePacker.mkPacked [1; 2] container_wire)).
  reflexivity.
Defined.


Lemma single_entry_is_not_wrapped_witness :
  exists b id,
    [1] = [b] /\
    @writeDataAsMessage Z counting_session 0%Z [] (data (ten_bytes b))
      (String.eqb (classType (request (ten_bytes b))) "request")
      (MessagePacker.afterId_of ten_bytes (ten_bytes b))
      = (MessagePacker._state scenario_get.1.2,
         le_bytes 1 ++ le_bytes 10 ++ replicate 10 0%Z, id) /\
    msgId (scenario_get.1.1 b) = Some id /\
    forall r, containerId (scenario_get.1.1 r) = containerId (ten_bytes r).
Proof.
  apply (@single_entry_is_not_wrapped Z counting_session scenario_core
           ten_bytes three_queued scenario_get.1.1 scenario_get.1.2
           (MessagePacker.mkPacked [1]
              (le_bytes 1 ++ le_bytes 10 ++ replicate 10 0%Z)));
    reflexivity.
Defined.

Lemma batch_entries_fit_alone_witness :
  Forall (@MessagePacker.within_limits scenario_core ten_bytes) [1].
Proof.
  apply (@batch_entries_fit_alone Z counting_session scenario_core ten_bytes
           three_queued scenario_get.1.1 scenario_get.1.2
           (MessagePacker.mkPacked [1]
              (le_bytes 1 ++ le_bytes 10 ++ replicate 10 0%Z))).
  reflexivity.
Defined.

Lemma dependent_entry_gets_fresh_id_witness :
  exists st1 buffer1 id_a st2 buffer2 id_b st3 out cid h',
    @writeDataAsMessage Z counting_session 0%Z [] (data (chained 1))
      (String.eqb (classType (request (chained 1))) "request")
      (MessagePacker.afterId_of chained (chained 1))
      = (st1, buffer1, id_a) /\
    @writeDataAsMessage Z counting_session st1 buffer1 (data (chained 2))
      (String.eqb (classType (request (chained 2))) "request") (Some id_a)
      = (st2, buffer2, id_b) /\
    @writeDataAsMessage Z counting_session st2 []
      (le_bytes 0x73f1f8dc ++ le_bytes 2 ++ buffer2) false None
      = (st3, out, cid) /\
    (@MessagePacker.get Z counting_session pair_core chained two_queued).2
      = MessagePacker.Returned (Some (MessagePacker.mkPacked [1; 2] out)) /\
    (@MessagePacker.get Z counting_session pair_core chained two_queued).1.1
      = h' /\
    msgId (h' 2) = Some id_b /\
    containerId (h' 1) = Some cid /\ containerId (h' 2) = Some cid.
Proof.
  apply (@dependent_entry_gets_fresh_id Z counting_session pair_core chained
           two_queued 1 2).
  - reflexivity.
  - reflexivity.
  - vm_compute. lia.
  - simpl. lia.
  - simpl. lia.
Defined.

Lemma uncancelled_task_delivers_witness :
  RealCancellablePromise.newPromise
    (RealCancellablePromise.run
       [RealCancellablePromise.run_reaction;
        RealCancellablePromise.settle_ok 7;
        RealCancellablePromise.run_reaction;
        RealCancellablePromise.settle_err (Error "late")]
       (RealCancellablePromise.pseudoCancellable pending))
  = fulfilled 7.
Proof.
  apply (@uncancelled_task_delivers nat pending
           [RealCancellablePromise.run_reaction;
            RealCancellablePromise.settle_ok 7]
           [RealCancellablePromise.settle_err (Error "late")]).
  - intros Hin.
    repeat (apply elem_of_cons in Hin as [Hin|Hin]; [discriminate|]).
    by apply elem_of_nil in Hin.
  - reflexivity.
Defined.

Lemma settled_task_is_final_witness :
  RealCancellablePromise.newPromise
    (RealCancellablePromise.run
       [RealCancellablePromise.call_cancel;
        RealCancellablePromise.call_cancel]
       delivered_task)
  = fulfilled 7.
Proof.
  apply (@settled_task_is_final nat delivered_task
           [RealCancellablePromise.call_cancel;
            RealCancellablePromise.call_cancel]).
  reflexivity.
Defined.

Lemma cancel_values_reaches_cancellables_witness :
  RealCancellablePromise.cancel_values mixed_values = ([1; 3], Normal ()) /\
  RealCancellablePromise.cancel_values
    (mixed_values
       ++ RealCancellablePromise.js_null
       :: [RealCancellablePromise.js_object true true 4])
  = ([1; 3],
     Throw (TypeError "Cannot read properties of null (reading 'then')")).
Proof.
  apply (cancel_values_reaches_cancellables mixed_values
           [RealCancellablePromise.js_object true true 4]).
  intros Hin.
  repeat (apply elem_of_cons in Hin as [Hin|Hin]; [discriminate|]).
  by apply elem_of_nil in Hin.
Defined.

Lemma recv_returns_first_payload_witness :
  Connection.recv connected_once
    ([(None, true); (Some [], true)] ++ (Some [1; 2]%Z, false) :: [(Some [3]%Z, true)])
  = Connection.recv_returned [1; 2]%Z.
Proof.
  apply (@recv_returns_first_payload nat connected_once
           [(None, true); (Some [], true)] [1; 2]%Z false [(Some [3]%Z, true)]).
  - reflexivity.
  - constructor; [split; [left|]; reflexivity|].
    constructor; [split; [right|]; reflexivity|]. constructor.
  - discriminate.
Defined.

Lemma attempts_returns_first_success_witness :
  Updates.attempts flaky 5 = Updates.mkAttempts (Normal (Some 7)) 3 2.
Proof.
  apply (@attempts_returns_first_success nat flaky 5 2 7).
  - lia.
  - intros j Hj. exists (Error "flaky"). unfold flaky.
    destruct (Nat.ltb_spec j 2); [reflexivity|lia].
  - reflexivity.
Defined.

Lemma attempts_throws_last_error_witness :
  Updates.attempts failing 3 = Updates.mkAttempts (Throw (Error "third")) 3 2.
Proof.
  apply (@attempts_throws_last_error nat failing 3 (Error "third")).
  - lia.
  - intros j _. by eexists.
  - reflexivity.
Defined.

(** ** The connection: what [disconnect] does to the loops' tasks *)
Section ConnectionCancel.
Import RealCancellablePromise Connection.
Context {Sock : Type} `{!Socket Sock}.

(** A task holds [noop] as its [rejectFn] only once its promise has
    settled. *)
Lemma noop_means_settled {T} (evs : list (Event T)) : forall t : Task T,
  (rejectFn t = noop -> settled (newPromise t) = true) ->
  rejectFn (run evs t) = noop -> settled (newPromise (run evs t)) = true.
Proof.
  unfold run. induction evs as [|ev evs IH]; intros t Hinv; [done|]. simpl.
  apply IH. destruct t as [u r c rf np]. simpl in *.
  unfold step, react, onFulfilled, onRejected, with_underlying, cancel.
  destruct ev; simpl; [done|done| |].
  - destruct r; [done|]. destruct u; [done|..]; destruct c; simpl; try done.
    + intros _. by destruct np.
    + intros Hrf. specialize (Hinv Hrf). by destruct np.
  - intros Hrf. specialize (Hinv Hrf). destruct rf; [done|]. by destruct np.
Qed.

Lemma cancel_pending_or_settled {T} (t : Task T) :
  (rejectFn t = noop -> settled (newPromise t) = true) ->
  newPromise (cancel t)
  = if settled (newPromise t) then newPromise t
    else rejected (Cancellation canceled_message).
Proof.
  intros Hinv. unfold cancel. simpl.
  destruct (rejectFn t).
  - by rewrite Hinv.
  - by destruct (newPromise t).
Qed.

(** X17: [disconnect] and the loops.  On a connection whose loops have
    installed their tasks - in whatever state those tasks are by then -
    [disconnect] completes without throwing, lowers the flag, closes the
    socket and calls [cancel] on both tasks: a task whose promise is still
    pending is rejected with the Cancellation, and a task that had already
    delivered a value or failed keeps that outcome. *)
Theorem disconnect_cancels_pending_loops (c : t Sock)
  (recv_promise send_promise : Promise (option Buffer))
  (recv_events send_events : list (Event (option Buffer))) :
  recvCancel c = Some (run recv_events (pseudoCancellable recv_promise)) ->
  sendCancel c = Some (run send_events (pseudoCancellable send_promise)) ->
  (disconnect c).2 = Normal () /\
  _connected (disconnect c).1 = false /\
  socket (disconnect c).1 = (socket_close (socket c)).1 /\
  exists rt st,
    recvCancel (disconnect c).1 = Some rt /\
    sendCancel (disconnect c).1 = Some st /\
    newPromise rt
    = (let before := newPromise (run recv_events (pseudoCancellable recv_promise)) in
       if settled before then before
       else rejected (Cancellation canceled_message)) /\
    newPromise st
    = (let before := newPromise (run send_events (pseudoCancellable send_promise)) in
       if settled before then before
       else rejected (Cancellation canceled_message)).
Proof.
  intros Hr Hs.
  unfold disconnect, _cancelLoops. simpl. rewrite Hr. simpl. rewrite Hs. simpl.
  destruct (socket_close (socket c)) as [s [[]|e]]; simpl;
    (split_and!; [done..|]); eexists _, _;
    (split_and!; [done|done| |]);
    apply cancel_pending_or_settled, noop_means_settled; done.
Qed.

End ConnectionCancel.

Lemma disconnect_cancels_pending_loops_witness :
  (@Connection.disconnect nat counting_socket busy_connection).2 = Normal () /\
  Connection._connected
    (@Connection.disconnect nat counting_socket busy_connection).1 = false /\
  Connection.socket
    (@Connection.disconnect nat counting_socket busy_connection).1 = 1 /\
  exists rt st,
    Connection.recvCancel
      (@Connection.disconnect nat counting_socket busy_connection).1 = Some rt /\
    Connection.sendCancel
      (@Connection.disconnect nat counting_socket busy_connection).1 = Some st /\
    RealCancellablePromise.newPromise rt
      = rejected (Cancellation "Promise canceled.") /\
    RealCancellablePromise.newPromise st = fulfilled (Some [7%Z]).
Proof.
  apply (@disconnect_cancels_pending_loops nat counting_socket busy_connection
           pending pending []
           [RealCancellablePromise.settle_ok (Some [7%Z]);
            RealCancellablePromise.run_reaction]);
    reflexivity.
Defined.

(** ** The packer while other tasks append *)
Section PackerDuring.
Import MessagePacker.
Context {St : Type} `{!MTProtoState St} `{!TLCore}.

Lemma get_body_ready_kept h (p : t St) : _ready (get_body h p).1.2 = _ready p.
Proof.
  unfold get_body.
  destruct (get_loop _ _) as [queue f|queue f e]; [|done].
  destruct (length (f_batch f) =? 0); [done|].
  destruct (1 <? length (f_batch f)); [|done].
  destruct (container_header _); [|done].
  by destruct (writeDataAsMessage _ _ _ _ _) as [[??]?].
Qed.

(** A loop that is appended to while it runs does what the plain loop does
    on the queue with those arrivals already at its end: the loop takes
    from the head, and an arrival it reaches has joined the tail before the
    test that follows. *)
Lemma get_loop_during_simulates (arrivals : list (list ref)) :
  forall queue (f : Frame St) seen,
  exists k,
    get_loop_during arrivals queue f seen
    = (get_loop (queue ++ concat (take k arrivals)) f,
       seen ++ concat (take k arrivals), drop k arrivals).
Proof.
  induction arrivals as [|a arrivals IHa].
  - induction queue as [|r rest IHq]; intros f seen; exists 0.
    + simpl. by rewrite app_nil_r.
    + simpl. rewrite !app_nil_r.
      destruct (length (f_batch f) <=? MAXIMUM_LENGTH); [|done].
      destruct (_ <=? MAXIMUM_SIZE); [|by destruct (negb _)].
      destruct (writeDataAsMessage _ _ _ _ _) as [[st' buffer'] id].
      match goal with
      | |- context [mkFrame ?h' st' ?l' buffer' ?b' ?s'] =>
        destruct (IHq (mkFrame h' st' l' buffer' b' s') seen) as [k Hk]
      end.
      rewrite take_nil, drop_nil in Hk.
      change (concat []) with (@nil ref) in Hk. rewrite !app_nil_r in Hk.
      exact Hk.
  - intros [|r rest] f seen.
    + exists 0. simpl. by rewrite app_nil_r.
    + simpl.
      destruct (length (f_batch f) <=? MAXIMUM_LENGTH) eqn:Hlen; cycle 1.
      { exists 0. simpl. by rewrite ?app_nil_r, ?Hlen. }
      destruct (f_size f + (length (data (f_heap f r)) + SIZE_OVERHEAD)
                <=? MAXIMUM_SIZE) eqn:Hsize; cycle 1.
      { exists 0. simpl. rewrite ?app_nil_r, ?Hlen, ?Hsize.
        by destruct (negb _). }
      destruct (writeDataAsMessage _ _ _ _ _) as [[st' buffer'] id] eqn:Hw.
      match goal with
      | |- context [mkFrame ?h' st' ?l' buffer' ?b' ?s'] =>
        destruct (IHa (rest ++ a) (mkFrame h' st' l' buffer' b' s')
                    (seen ++ a)) as [k Hk]
      end.
      exists (S k). simpl. rewrite ?Hlen, ?Hsize, ?Hw, Hk.
      by rewrite <- !app_assoc.
Qed.

Lemma take_arrivals_offered (k : nat) (arrivals : list (list ref)) :
  forall x, x ∈ concat (take k arrivals) -> x ∈ concat arrivals.
Proof.
  intros x Hx. rewrite <- (take_drop k arrivals), concat_app.
  apply elem_of_app. by left.
Qed.

Lemma next_arrival_offered (k : nat) (arrivals : list (list ref)) :
  concat (take k arrivals) ++ next_arrival (drop k arrivals)
  = concat (take (S k) arrivals).
Proof.
  revert arrivals. induction k as [|k IH]; intros [|a arrivals]; simpl;
    [done|by rewrite app_nil_r|done|].
  by rewrite <- app_assoc, IH.
Qed.

(** The same for the whole body: [get] with arrivals is [get] on the queue
    with the arrivals it met in the loop, [early], at its end; what arrives
    during the await for the container, [late], is queued behind what the
    call leaves. *)
Lemma get_body_during_simulates (arrivals : list (list ref)) h (p : t St) :
  exists k early late,
    early ++ late = concat (take k arrivals) /\
    get_body_during arrivals h p
    = (let res :=
         get_body h (mk (_state p) (_queue p ++ early) (_pendingStates p)
                       (_ready p) (_log p)) in
       (res.1.1,
        mk (_state res.1.2) (_queue res.1.2 ++ late) (_pendingStates p)
           (_ready (extend (early ++ late) p)) (_log res.1.2),
        res.2, early ++ late)).
Proof.
  unfold get_body_during, get_body. simpl.
  destruct (get_loop_during_simulates arrivals (_queue p)
              (mkFrame h (_state p) (_log p) [] [] 0) []) as [k ->].
  simpl.
  destruct (get_loop _ _) as [queue f|queue f e] eqn:Hloop.
  - destruct (length (f_batch f) =? 0) eqn:Hzero.
    { exists k, (concat (take k arrivals)), []. simpl.
      rewrite Hloop, Hzero. simpl. by rewrite !app_nil_r. }
    destruct (1 <? length (f_batch f)) eqn:Hmany.
    + destruct (container_header _) as [b|e] eqn:Hheader.
      * destruct (writeDataAsMessage _ _ _ _ _) as [[st' buffer'] cid] eqn:Hw.
        exists (S k), (concat (take k arrivals)),
          (next_arrival (drop k arrivals)).
        split; [apply next_arrival_offered|].
        simpl. by rewrite Hloop, Hzero, Hmany, Hheader, Hw.
      * exists k, (concat (take k arrivals)), []. simpl.
        rewrite Hloop, Hzero, Hmany, Hheader. simpl. by rewrite !app_nil_r.
    + exists k, (concat (take k arrivals)), []. simpl.
      rewrite Hloop, Hzero, Hmany. simpl. by rewrite !app_nil_r.
  - exists k, (concat (take k arrivals)), []. simpl.
    rewrite Hloop. simpl. by rewrite !app_nil_r.
Qed.

(** With nothing appended meanwhile, [get_during] is [get]. *)
Lemma get_during_alone h (p : t St) : get_during [] h p = (get h p, []).
Proof.
  unfold get_during, get. destruct (_queue p) as [|q rest] eqn:Hq; [done|].
  destruct (get_body_during_simulates [] h p) as (k & early & late & Hnew & ->).
  rewrite take_nil in Hnew. simpl in Hnew.
  apply app_eq_nil in Hnew as [-> ->]. simpl. rewrite !app_nil_r.
  replace (mk (_state p) (_queue p) (_pendingStates p) (_ready p) (_log p))
    with p by (by destruct p).
  pose proof (get_body_pendingStates h p) as Hpend.
  pose proof (get_body_ready_kept h p) as Hready.
  destruct (get_body h p) as [[h' p'] o]. simpl in *.
  rewrite <- Hpend, <- Hready. by destruct p'.
Qed.

(** The plain loop writes only to objects it shifted from the queue. *)
Lemma get_loop_other queue : forall (f : Frame St) r,
  r ∉ queue ->
  f_heap (exit_frame (get_loop queue f)) r = f_heap f r.
Proof.
  induction queue as [|q rest IH]; intros f r Hr; [done|]. simpl.
  apply not_elem_of_cons in Hr as [Hne Hr].
  destruct (length (f_batch f) <=? MAXIMUM_LENGTH); [|done].
  destruct (_ <=? MAXIMUM_SIZE).
  - destruct (writeDataAsMessage _ _ _ _ _) as [[st' buffer'] id].
    rewrite IH by done. simpl. by apply heap_update_other.
  - by destruct (negb _).
Qed.

Lemma get_body_other h (p : t St) (r : ref) :
  r ∉ _queue p -> (get_body h p).1.1 r = h r.
Proof.
  intros Hr. unfold get_body.
  pose proof (get_loop_other (_queue p)
                (mkFrame h (_state p) (_log p) [] [] 0) r Hr) as Hother.
  destruct (get_loop _ _) as [queue f|queue f e] eqn:Hloop;
    simpl in Hother |- *; [|done].
  destruct (length (f_batch f) =? 0); [done|].
  destruct (1 <? length (f_batch f)); [|done].
  destruct (container_header _); [|done].
  destruct (writeDataAsMessage _ _ _ _ _) as [[st' buffer'] cid]. simpl.
  apply get_loop_done in Hloop as (taken & Htaken & Hb & _). simpl in Hb.
  rewrite set_container_other; [done|].
  rewrite Hb. intros Hin. apply Hr. rewrite Htaken.
  apply elem_of_app. by left.
Qed.

(** What [get_body] does with heap, session, queue and log does not depend
    on [_ready]. *)
Lemma get_body_whatever_ready h st queue pend ready ready' log :
  let res := get_body h (mk st queue pend ready log) in
  let res' := get_body h (mk st queue pend ready' log) in
  res'.1.1 = res.1.1 /\ res'.2 = res.2 /\
  _state res'.1.2 = _state res.1.2 /\ _queue res'.1.2 = _queue res.1.2.
Proof.
  unfold get_body. simpl.
  destruct (get_loop _ _) as [queue' f|queue' f e]; [|done].
  destruct (length (f_batch f) =? 0); [done|].
  destruct (1 <? length (f_batch f)); [|done].
  destruct (container_header _); [|done].
  by destruct (writeDataAsMessage _ _ _ _ _) as [[??]?].
Qed.

(** How a [get] in company ends: parked for good, on an empty queue that
    nothing is appended to; or as [get] ends on the queue with the early
    arrivals at its end, the late ones queued behind what it leaves. *)
Lemma get_during_cases (arrivals : list (list ref)) h (p : t St) :
  ((get_during arrivals h p).1.2 = Suspended /\ _queue p = [] /\
   (get_during arrivals h p).2 = [] /\
   (get_during arrivals h p).1.1.1 = h /\
   _queue (get_during arrivals h p).1.1.2 = [])
  \/ exists k early late res,
       early ++ late = concat (take k arrivals) /\
       _queue p ++ early <> [] /\
       res = get_body h (mk (_state p) (_queue p ++ early) (_pendingStates p)
                           (_ready p) (_log p)) /\
       (get_during arrivals h p).1.1.1 = res.1.1 /\
       _queue (get_during arrivals h p).1.1.2 = _queue res.1.2 ++ late /\
       (get_during arrivals h p).1.2 = res.2 /\
       (get_during arrivals h p).2 = early ++ late.
Proof.
  unfold get_during. destruct (_queue p) as [|q rest] eqn:Hq.
  - destruct arrivals as [|[|s a] arrivals]; [by left|by left|]. right.
    set (parked := mk (_state p) [] (_pendingStates p) pending (_log p)).
    destruct (get_body_during_simulates arrivals h (extend (s :: a) parked))
      as (k & early & late & Hnew & Hbody).
    rewrite Hbody. clear Hbody.
    assert (forall (states : list ref) (p0 : t St),
              _log (extend states p0) = _log p0) as Hlog.
    { unfold extend. induction states as [|x states IH]; intros p0; [done|].
      simpl. by rewrite IH. }
    rewrite extend_queue, extend_state, extend_pendingStates, Hlog.
    simpl.
    destruct (get_body_whatever_ready h (_state p) (s :: a ++ early)
                (_pendingStates p) (_ready p)
                (_ready (extend (s :: a) parked)) (_log p))
      as (Hheap & Hout & Hstate & Hqueue). simpl in *.
    exists (S k), ((s :: a) ++ early), late,
      (get_body h (mk (_state p) (s :: a ++ early) (_pendingStates p)
                     (_ready p) (_log p))).
    split_and!; [|done|done|done| |done|].
    + simpl. rewrite <- !app_assoc, Hnew. done.
    + simpl. by rewrite Hqueue.
    + simpl. by rewrite <- !app_assoc.
  - right.
    destruct (get_body_during_simulates arrivals h p)
      as (k & early & late & Hnew & Hbody).
    rewrite Hbody, Hq. simpl.
    exists k, early, late,
      (get_body h (mk (_state p) ((q :: rest) ++ early) (_pendingStates p)
                     (_ready p) (_log p))).
    by split_and!.
Qed.

(** X2: [get] writes only to requests it was offered: a RequestState that
    was neither in the queue when [get] was called nor appended while the
    call ran is left exactly as it was. *)
Theorem get_touches_only_offered (arrivals : list (list ref)) h (p : t St)
  (r : ref) :
  r ∉ _queue p ++ (get_during arrivals h p).2 ->
  (get_during arrivals h p).1.1.1 r = h r.
Proof.
  intros Hr.
  destruct (get_during_cases arrivals h p)
    as [(_ & _ & _ & -> & _)
       |(k & early & late & res & _ & _ & -> & -> & _ & _ & Hseen)]; [done|].
  apply get_body_other. simpl. intros Hin. apply Hr.
  rewrite Hseen, !app_assoc. apply elem_of_app. by left.
Qed.

(** What a batch returned by the plain [get] is like. *)
Lemma get_body_batch_facts h (p : t St) h' p' packed :
  get_body h p = (h', p', Returned (Some packed)) ->
  batch_size h (batch packed) <= MAXIMUM_SIZE /\
  1 <= length (batch packed) <= S MAXIMUM_LENGTH /\
  _queue p = batch packed ++ _queue p'.
Proof.
  intros (f & Hloop & -> & Hshape)%get_body_packed.
  pose proof (get_loop_keeps (_queue p)
                (mkFrame h (_state p) (_log p) [] [] 0)) as Hkeep.
  rewrite Hloop in Hkeep. simpl in Hkeep.
  pose proof (get_loop_size _ _ _ _ Hloop eq_refl ltac:(simpl; lia)) as Hsize.
  pose proof (get_loop_length _ _ _ _ Hloop ltac:(simpl; lia)) as Hlen.
  apply get_loop_done in Hloop as (taken & -> & Hbatch & _).
  simpl in Hbatch, Hsize, Hlen.
  rewrite (batch_size_ext h) in Hsize by (intros r0; apply Hkeep).
  rewrite Hbatch in Hsize, Hlen, Hshape |- *.
  split_and!; [done| |done|done].
  destruct Hshape as [(? & _)|(? & _)]; lia.
Qed.

(** X23: the limits hold in company too.  Whatever is appended while [get]
    runs, a batch it returns has a total size (payload lengths plus
    [SIZE_OVERHEAD] each) of at most [MAXIMUM_SIZE] and between one and
    [MAXIMUM_LENGTH + 1] entries; and the batch followed by the queue it
    leaves is the queue it found followed by what was appended meanwhile -
    so a batch can hold requests appended after the call began, and always
    in the order they were handed in. *)
Theorem batch_limits_in_company (arrivals : list (list ref)) h (p : t St)
  packed :
  (get_during arrivals h p).1.2 = Returned (Some packed) ->
  batch_size h (batch packed) <= MAXIMUM_SIZE /\
  1 <= length (batch packed) <= S MAXIMUM_LENGTH /\
  batch packed ++ _queue (get_during arrivals h p).1.1.2
  = _queue p ++ (get_during arrivals h p).2.
Proof.
  intros Hret.
  destruct (get_during_cases arrivals h p)
    as [(Hpark & _)
       |(k & early & late & res & _ & _ & Hres & _ & Hqueue & Hout & Hseen)].
  { by rewrite Hpark in Hret. }
  rewrite Hret in Hout. destruct res as [[h1 p1] o]. simpl in *. subst o.
  symmetry in Hres. apply get_body_batch_facts in Hres as (? & ? & Hsplit).
  cbn in Hsplit. split; [done|split; [done|]].
  by rewrite Hqueue, Hseen, !app_assoc, <- Hsplit.
Qed.

(** X8: one consumer receives every request once and in order.  When [get]
    is called and awaited by one consumer at a time, producers may append at
    any moment - between two calls, while a call is parked, or while it
    awaits the session.  If every request fits a packet, the batches the
    consumer has received, put end to end and followed by what is still
    queued, are the requests in the order they were handed in. *)
Theorem consumer_receives_in_order (steps : list Step) :
  forall w : Heap * t St,
  (0 <= CONSTRUCTOR_ID < 2 ^ 32)%Z ->
  (Z.of_nat (S MAXIMUM_LENGTH) < 2 ^ 31)%Z ->
  Forall (within_limits w.1) (_queue w.2 ++ offered steps) ->
  concat (consumer_run steps w).1.1 ++ _queue (consumer_run steps w).2.2
  = _queue w.2 ++ (consumer_run steps w).1.2.
Proof.
  induction steps as [|[states|arrivals] steps IH];
    intros [h p] Hid Hcount Hfit; simpl in *.
  - by rewrite app_nil_r.
  - specialize (IH (h, extend states p) Hid Hcount). simpl in IH.
    rewrite extend_queue in IH.
    destruct (consumer_run steps (h, extend states p)) as [[bs handed] w'].
    simpl in *. rewrite IH; [by rewrite <- app_assoc|].
    by rewrite <- app_assoc.
  - apply Forall_app in Hfit as [Hqueue Hfit].
    apply Forall_app in Hfit as [Harr Hrest].
    destruct (get_during_cases arrivals h p)
      as [(Hpark & Hq & Hseen & _ & Hq')
         |(k & early & late & res & Hnew & Hne & Hres & Hheap & Hq'
             & Hout & Hseen)].
    + destruct (get_during arrivals h p) as [[[h' p'] o] seen].
      simpl in *. subst o seen. simpl. by rewrite Hq, Hq'.
    + assert (Forall (within_limits h) (early ++ late)) as Hnewfit.
      { apply Forall_forall. intros x Hx. rewrite Hnew in Hx.
        apply take_arrivals_offered in Hx.
        by eapply Forall_forall in Harr. }
      apply Forall_app in Hnewfit as [Hearly Hlate].
      destruct (get_within h
                  (mk (_state p) (_queue p ++ early) (_pendingStates p)
                     (_ready p) (_log p)))
        as (h1 & p1 & packed & Hget & _ & Hsplit & Hdata);
        [done|done|by apply Forall_app|done|].
      rewrite get_nonempty in Hget by done. rewrite Hget in Hres.
      simpl in Hsplit.
      destruct (get_during arrivals h p) as [[[h' p'] o] seen].
      simpl in *. subst res. simpl in *. subst o seen h'.
      specialize (IH (h1, p') Hid Hcount). simpl in IH.
      destruct (consumer_run steps (h1, p')) as [[bs handed] w'].
      simpl in *. rewrite <- app_assoc, IH.
      * by rewrite Hq', !app_assoc, <- Hsplit.
      * rewrite Hq'. apply (within_limits_ext h); [done|].
        assert (Forall (within_limits h) (_queue p1)) as Hleft.
        { assert (Forall (within_limits h) (batch packed ++ _queue p1)) as Hall
            by (rewrite <- Hsplit; by apply Forall_app).
          by apply Forall_app in Hall as [_ ?]. }
        repeat (apply Forall_app; split); done.
Qed.

End PackerDuring.

Lemma get_touches_only_offered_witness :
  busy_get.2 = [1; 2; 3; 4] /\ busy_get.1.1.1 7 = one_byte 7.
Proof.
  split; [reflexivity|].
  apply (@get_touches_only_offered Z counting_session pair_core
           [[1]; [2; 3]; [4]] one_byte (MessagePacker.new 0%Z) 7).
  intros Hin. vm_compute in Hin.
  repeat (apply elem_of_cons in Hin as [Hin|Hin]; [lia|]).
  by apply elem_of_nil in Hin.
Defined.

Lemma batch_limits_in_company_witness :
  @MessagePacker.batch_size pair_core one_byte [1; 2; 3]
  <= @MAXIMUM_SIZE pair_core /\
  1 <= length [1; 2; 3] <= S (@MAXIMUM_LENGTH pair_core) /\
  [1; 2; 3] ++ MessagePacker._queue busy_get.1.1.2
  = MessagePacker._queue (MessagePacker.new 0%Z) ++ busy_get.2.
Proof.
  apply (@batch_limits_in_company Z counting_session pair_core
           [[1]; [2; 3]; [4]] one_byte (MessagePacker.new 0%Z)
           (MessagePacker.mkPacked [1; 2; 3] busy_wire)).
  reflexivity.
Defined.

Lemma consumer_receives_in_order_witness :
  busy_run.1.1 = [[1; 2; 3]; [4; 5]] /\
  concat busy_run.1.1 ++ MessagePacker._queue busy_run.2.2
  = MessagePacker._queue (MessagePacker.new 0%Z) ++ busy_run.1.2.
Proof.
  split; [reflexivity|].
  apply (@consumer_receives_in_order Z counting_session pair_core busy_steps
           (one_byte, MessagePacker.new 0%Z)).
  - simpl. lia.
  - simpl. lia.
  - repeat constructor; unfold MessagePacker.within_limits; simpl; lia.
Defined.
